(** * Boids: the steering kernel and the per-tick flock update

    A shallow embedding of [src/main.cpp].  The program is written once,
    over an interface of the [float] operations it uses, and read in two
    ways:

    - [Binary32]: IEEE 754 single precision, round to nearest even, as the
      compiled program computes (the operations of [SpecFloat] at precision
      24 and maximal exponent 128; [double] where C++ promotes to it).
      [fmod], [fabs] and [sqrtf] are exact or correctly rounded and are
      computed; [atan2], [cos] and [sin] are a parameter, of which only the
      values Annex F of the C standard fixes at zero are ever assumed;
    - [Exact]: the same program text over the real numbers, the arithmetic
      the comments of the source reason in.

    Properties of the control and data flow are proved once, for every
    interpretation.  Properties of the numbers are proved in [Exact] and
    tested against [Binary32], where every definition evaluates; the
    bounds of [steering_nudge] are proved in [Binary32] as well, with the
    rounding of each float operation bounded. *)

From Stdlib Require Import ZArith List Bool Lia Arith.
From Stdlib Require Import QArith Qabs Qminmax.
From Stdlib Require Import Floats.SpecFloat.
From Stdlib Require Import Reals Lra.
Import ListNotations.

Set Implicit Arguments.

(** ** The interface of [float] *)

(** Arithmetic of the C++ type [float], with the correctly rounded or exact
    functions of [<cmath>] the program calls. *)
Class FloatArith (F : Type) : Type := {
  of_Z : Z -> F;                 (* integer literals, and size_t -> float *)
  lit_pi : F;                    (* the literal 3.141592653f *)
  M_PI : F;                      (* static_cast<float>(M_PI) *)
  fadd : F -> F -> F;
  fsub : F -> F -> F;
  fmul : F -> F -> F;
  fdiv : F -> F -> F;
  fneg : F -> F;
  flt : F -> F -> bool;          (* operator< *)
  fabs : F -> F;                 (* fabs, abs *)
  fmod : F -> F -> F;            (* fmod: remainder with the sign of the dividend *)
  sum_pow2 : F -> F -> F;        (* pow(u, 2) + pow(v, 2), narrowed to float *)
  sqrtf : F -> F
}.

(** The transcendental functions of [<cmath>]. *)
Class FloatTrig (F : Type) : Type := {
  atan2 : F -> F -> F;
  fcos : F -> F;
  fsin : F -> F
}.

Declare Scope float_scope.
Delimit Scope float_scope with fl.
Infix "+" := fadd : float_scope.
Infix "-" := fsub : float_scope.
Infix "*" := fmul : float_scope.
Infix "/" := fdiv : float_scope.
Notation "- x" := (fneg x) : float_scope.
Infix "<?" := flt : float_scope.
Notation "x >? y" := (flt y x) : float_scope.

(** ** Data model *)

Record Vector2f (F : Type) : Type := mkVector2f { vx : F; vy : F }.

(** [struct Boid]: position, heading in degrees, identity. *)
Record Boid (F : Type) : Type := mkBoid { pos : Vector2f F; rot : F; id : nat }.

Arguments mkVector2f {F} _ _.
Arguments mkBoid {F} _ _ _.

(** [Boid::operator==] compares identities only. *)
Definition boid_eqb {F : Type} (a b : Boid F) : bool := Nat.eqb (id a) (id b).

Definition set_rot {F : Type} (b : Boid F) (r : F) : Boid F :=
  mkBoid (pos b) r (id b).

Definition set_pos {F : Type} (b : Boid F) (p : Vector2f F) : Boid F :=
  mkBoid p (rot b) (id b).

(** ** namespace Helpers *)

Section Helpers.
Context {F : Type} {A : FloatArith F}.
Local Open Scope float_scope.

Definition vsub (b a : Vector2f F) : Vector2f F :=
  mkVector2f (vx b - vx a) (vy b - vy a).

Definition vadd (a d : Vector2f F) : Vector2f F :=
  mkVector2f (vx a + vx d) (vy a + vy d).

Definition distance (a b : Vector2f F) : F :=
  sqrtf (sum_pow2 (fabs (vx b - vx a)) (fabs (vy b - vy a))).

Definition normalize_angle (theta : F) : F :=
  let theta := fmod theta (of_Z 360) in
  if theta <? of_Z 0 then theta + of_Z 360 else theta.

Definition opposite_angle (theta : F) : F :=
  let theta := normalize_angle theta in
  normalize_angle (theta + of_Z 180).

(** The signed difference after the wrap across +-360. *)
Definition wrapped_difference (n_from n_to : F) : F :=
  let difference := n_to - n_from in
  if difference >? of_Z 180 then difference - of_Z 360
  else if difference <? - of_Z 180 then difference + of_Z 360
  else difference.

Definition steering_nudge (from to steering_force : F) : F :=
  let n_from := normalize_angle from in
  let n_to := normalize_angle to in
  let difference := wrapped_difference n_from n_to in
  let adjustment :=
    if fabs difference <? steering_force then fabs difference
    else steering_force in
  let newAngle :=
    n_from + (if difference >? of_Z 0 then adjustment else - adjustment) in
  normalize_angle newAngle.

Definition degrees_to_radians (degrees : F) : F :=
  degrees * (lit_pi / of_Z 180).

Context {T : FloatTrig F}.

Definition angle_to (a b : Vector2f F) : F :=
  let difference := vsub b a in
  let angleRadians := atan2 (vy difference) (vx difference) in
  let angleDegrees := angleRadians * of_Z 180 / M_PI in
  angleDegrees.
End Helpers.

(** ** struct System *)

Section System.
Context {F : Type} {A : FloatArith F} {T : FloatTrig F}.
Local Open Scope float_scope.

(** [System::System(n_boids)].  The identities come from the counter that
    is static in [Boid::Boid]; [next_id] is its value at the call. *)
Definition System_from (next_id n_boids : nat) : list (Boid F) :=
  map (fun i => mkBoid (mkVector2f (of_Z 20 * of_Z (Z.of_nat i)) (of_Z 200))
                       (of_Z 0) (next_id + i))
      (seq 0 n_boids).

Definition System (n_boids : nat) : list (Boid F) := System_from 0 n_boids.

Definition separation_force : F := of_Z 90.
Definition cohesion_force : F := of_Z 60.
Definition alignment_force : F := of_Z 50.
Definition movement_speed : F := of_Z 10.
Definition separationRing : F := of_Z 20.

(** [std::accumulate(v.begin(), v.end(), 0.0f)] *)
Definition accumulate (v : list F) : F := fold_left fadd v (of_Z 0).

(** [accumulate(v) / static_cast<float>(v.size())] *)
Definition mean (v : list F) : F :=
  accumulate v / of_Z (Z.of_nat (length v)).

(** *** Separation *)

(** The inner loop over [y]: the agents other than [x] inside the ring. *)
Definition in_ring (x y : Boid F) : bool :=
  negb (boid_eqb x y) && (distance (pos x) (pos y) <? separationRing).

Definition boid_angles (boids : list (Boid F)) (x : Boid F) : list F :=
  map (fun y => angle_to (pos x) (pos y)) (filter (in_ring x) boids).

(** The body of the outer loop, for the agent [x] of the list [boids]. *)
Definition separate (delta_time : F) (boids : list (Boid F)) (x : Boid F)
  : Boid F :=
  match boid_angles boids x with
  | [] => x
  | angles =>
      let average_angle := mean angles in
      let target_angle := opposite_angle average_angle in
      set_rot x (steering_nudge (rot x) target_angle
                                (separation_force * delta_time))
  end.

(** The outer loop mutates the list it iterates over: when the agent [x]
    is visited, the agents before it ([visited]) already carry their new
    headings, and the inner loop runs over that list. *)
Fixpoint separation_loop (delta_time : F) (visited pending : list (Boid F))
  : list (Boid F) :=
  match pending with
  | [] => visited
  | x :: rest =>
      let boids := visited ++ x :: rest in
      separation_loop delta_time (visited ++ [separate delta_time boids x]) rest
  end.

Definition separation (delta_time : F) (boids : list (Boid F)) : list (Boid F) :=
  separation_loop delta_time [] boids.

(** *** Cohesion *)

Definition center (boids : list (Boid F)) : Vector2f F :=
  let xs := map (fun boid => vx (pos boid)) boids in
  let ys := map (fun boid => vy (pos boid)) boids in
  mkVector2f (mean xs) (mean ys).

Definition cohesion (delta_time : F) (boids : list (Boid F)) : list (Boid F) :=
  let c := center boids in
  map (fun boid =>
         set_rot boid (steering_nudge (rot boid) (angle_to (pos boid) c)
                                      (cohesion_force * delta_time)))
      boids.

(** *** Alignment *)

Definition average_rotation (boids : list (Boid F)) : F :=
  mean (map (fun boid => rot boid) boids).

Definition alignment (delta_time : F) (boids : list (Boid F)) : list (Boid F) :=
  let average_rotation := average_rotation boids in
  map (fun boid =>
         set_rot boid (steering_nudge (rot boid) average_rotation
                                      (alignment_force * delta_time)))
      boids.

(** *** Movement *)

Definition displacement (delta_time heading : F) : Vector2f F :=
  mkVector2f (fcos (degrees_to_radians heading) * movement_speed * delta_time)
             (fsin (degrees_to_radians heading) * movement_speed * delta_time).

Definition movement (delta_time : F) (boids : list (Boid F)) : list (Boid F) :=
  map (fun boid => set_pos boid (vadd (pos boid) (displacement delta_time (rot boid))))
      boids.

(** [System::update] *)
Definition update (delta_time : F) (boids : list (Boid F)) : list (Boid F) :=
  movement delta_time
    (alignment delta_time
       (cohesion delta_time
          (separation delta_time boids))).

(** [System::average_boid_position] *)
Definition average_boid_position (boids : list (Boid F)) : Vector2f F :=
  center boids.

(** [n] consecutive ticks. *)
Fixpoint ticks (n : nat) (delta_time : F) (boids : list (Boid F)) : list (Boid F) :=
  match n with
  | O => boids
  | S n' => ticks n' delta_time (update delta_time boids)
  end.

(** *** The update of the specification

    Each pass first computes its aggregate values from the state at the
    start of the pass (a snapshot) and only then applies the nudges. *)

(** Per-agent mean bearing to the neighbours inside the ring; [None] when
    there is none. *)
Definition mean_neighbor_bearing (snapshot : list (Boid F)) (a : Boid F)
  : option F :=
  match boid_angles snapshot a with
  | [] => None
  | angles => Some (mean angles)
  end.

Definition apply_separation (delta_time : F) (a : Boid F) (m : option F) : Boid F :=
  match m with
  | None => a
  | Some bearing =>
      set_rot a (steering_nudge (rot a) (opposite_angle bearing)
                                (separation_force * delta_time))
  end.

Fixpoint zip_with {X Y Z : Type} (f : X -> Y -> Z) (l : list X) (l' : list Y)
  : list Z :=
  match l, l' with
  | a :: l, b :: l' => f a b :: zip_with f l l'
  | _, _ => []
  end.

Definition ref_separation (delta_time : F) (snapshot : list (Boid F)) :=
  let bearings := map (mean_neighbor_bearing snapshot) snapshot in
  zip_with (apply_separation delta_time) snapshot bearings.

Definition ref_cohesion (delta_time : F) (snapshot : list (Boid F)) :=
  let centroid := center snapshot in
  let targets := map (fun a => angle_to (pos a) centroid) snapshot in
  zip_with (fun a t => set_rot a (steering_nudge (rot a) t
                                                 (cohesion_force * delta_time)))
           snapshot targets.

Definition ref_alignment (delta_time : F) (snapshot : list (Boid F)) :=
  let mean_heading := mean (map (fun a => rot a) snapshot) in
  zip_with (fun a t => set_rot a (steering_nudge (rot a) t
                                                 (alignment_force * delta_time)))
           snapshot (map (fun _ => mean_heading) snapshot).

Definition ref_movement (delta_time : F) (snapshot : list (Boid F)) :=
  let steps := map (fun a => displacement delta_time (rot a)) snapshot in
  zip_with (fun a d => set_pos a (vadd (pos a) d)) snapshot steps.

Definition ref_update (delta_time : F) (boids : list (Boid F)) : list (Boid F) :=
  ref_movement delta_time
    (ref_alignment delta_time
       (ref_cohesion delta_time
          (ref_separation delta_time boids))).

(** *** Auxiliary notions for the statements *)

(** What the separation pass reads of the other agents: where they are and
    who they are, not where they head. *)
Definition places (boids : list (Boid F)) : list (Vector2f F * nat) :=
  map (fun b => (pos b, id b)) boids.

(** All agents of the flock are at [p] and head toward [h]. *)
Definition uniform (p : Vector2f F) (h : F) (boids : list (Boid F)) : Prop :=
  forall b, In b boids -> pos b = p /\ rot b = h.
End System.

(** ** IEEE 754 single precision *)

Module Binary32.
Definition prec : Z := 24.
Definition emax : Z := 128.
Definition dprec : Z := 53.
Definition demax : Z := 1024.

Abbreviation float := spec_float (only parsing).

(** Conversions between [float] and [double]: widening is exact,
    narrowing rounds. *)
Definition widen (u : float) : spec_float :=
  match u with
  | S754_finite s m e => binary_round dprec demax s m e
  | _ => u
  end.

Definition narrow (u : spec_float) : float :=
  match u with
  | S754_finite s m e => binary_round prec emax s m e
  | _ => u
  end.

Definition b32_of_Z (z : Z) : float := binary_normalize prec emax z 0 false.

(** The correctly rounded quotient of two positive integers: how a decimal
    literal is read. *)
Definition b32_of_ratio (n d : positive) : float :=
  SFdiv prec emax (S754_finite false n 0) (S754_finite false d 0).

(** [M_PI] is the double 0x400921FB54442D18. *)
Definition M_PI_double : spec_float := S754_finite false 884279719003555 (-48).

(** [fmod] is exact: the remainder of the magnitudes, with the sign of
    the dividend. *)
Definition b32_fmod (u v : float) : float :=
  match u, v with
  | S754_nan, _ | _, S754_nan => S754_nan
  | S754_infinity _, _ => S754_nan
  | _, S754_zero _ => S754_nan
  | _, S754_infinity _ => u
  | S754_zero _, _ => u
  | S754_finite su mu eu, S754_finite _ mv ev =>
      let e := Z.min eu ev in
      let U := Zpos (fst (shl_align mu eu e)) in
      let V := Zpos (fst (shl_align mv ev e)) in
      binary_normalize prec emax (cond_Zopp su (Z.modulo U V)) e su
  end.

(** [pow(u, 2) + pow(v, 2)] is evaluated in [double] (each square of a
    [float] is exact there) and narrowed at the call of [sqrtf]. *)
Definition b32_sum_pow2 (u v : float) : float :=
  let du := widen u in
  let dv := widen v in
  narrow (SFadd dprec demax (SFmul dprec demax du du) (SFmul dprec demax dv dv)).

#[export] Instance arith : FloatArith float := {|
  of_Z := b32_of_Z;
  lit_pi := b32_of_ratio 3141592653 1000000000;
  M_PI := narrow M_PI_double;
  fadd := SFadd prec emax;
  fsub := SFsub prec emax;
  fmul := SFmul prec emax;
  fdiv := SFdiv prec emax;
  fneg := SFopp;
  flt := SFltb;
  fabs := SFabs;
  fmod := b32_fmod;
  sum_pow2 := b32_sum_pow2;
  sqrtf := SFsqrt prec emax
|}.

(** 2^k as a [float], for the examples. *)
Definition pow2 (k : Z) : float := SFldexp prec emax (b32_of_Z 1) k.

Definition is_finite (u : float) : bool :=
  match u with
  | S754_zero _ | S754_finite _ _ _ => true
  | _ => false
  end.

(** The exact rational value of a finite [float]. *)
Definition to_Q (u : float) : Q :=
  match u with
  | S754_finite s m e =>
      let v := match e with
               | Zneg p => Qmake (Zpos m) (Pos.pow 2 p)
               | _ => inject_Z (Zpos m * Z.pow 2 e)
               end in
      if s then Qopp v else v
  | _ => 0%Q
  end.

(** Structural equality of floats (it separates +0 from -0). *)
Definition sf_eqb (u v : float) : bool :=
  match u, v with
  | S754_zero s, S754_zero s' => Bool.eqb s s'
  | S754_infinity s, S754_infinity s' => Bool.eqb s s'
  | S754_nan, S754_nan => true
  | S754_finite s m e, S754_finite s' m' e' =>
      Bool.eqb s s' && Pos.eqb m m' && Z.eqb e e'
  | _, _ => false
  end.

(** What Annex F of the C standard fixes of the three functions at zero:
    atan2(+0, +0) = +0, cos(+0) = 1, sin(+0) = +0. *)
Definition AnnexF (T : FloatTrig float) : Prop :=
  atan2 (S754_zero false) (S754_zero false) = S754_zero false /\
  fcos (S754_zero false) = b32_of_Z 1 /\
  fsin (S754_zero false) = S754_zero false.

(** A library that knows these values only: NaN everywhere else. *)
Definition zero_only_trig : FloatTrig float := {|
  atan2 := fun v u =>
    match v, u with
    | S754_zero false, S754_zero false => S754_zero false
    | _, _ => S754_nan
    end;
  fcos := fun u => match u with S754_zero false => b32_of_Z 1 | _ => S754_nan end;
  fsin := fun u => match u with S754_zero false => S754_zero false | _ => S754_nan end
|}.

(** The tick of 1/60 s. *)
Definition dt60 : float := SFdiv prec emax (b32_of_Z 1) (b32_of_Z 60).

(** A flock of one agent that heads toward 0 degrees at height 200. *)
Definition lone (x : float) : list (Boid float) :=
  [mkBoid (mkVector2f x (b32_of_Z 200)) (b32_of_Z 0) 0].

(** The step of the lone agent along x in one tick:
    cos(0) * movement_speed * delta_time. *)
Definition stride : float :=
  SFmul prec emax (SFmul prec emax (b32_of_Z 1) (b32_of_Z 10)) dt60.

Fixpoint x_after (k : nat) : float :=
  match k with
  | O => b32_of_Z 0
  | S k' => SFadd prec emax (x_after k') stride
  end.

(** The float facts the tick of the lone agent at [x] rests on: the mean
    of the one abscissa is the abscissa, the difference of the abscissa
    with itself is +0, and the abscissa is finite. *)
Definition steady (x : float) : bool :=
  sf_eqb (SFdiv prec emax (SFadd prec emax (b32_of_Z 0) x) (b32_of_Z 1)) x
  && sf_eqb (SFsub prec emax x x) (S754_zero false)
  && is_finite x.

Definition steady_upto (n : nat) : bool :=
  forallb (fun k => steady (x_after k)) (seq 0 (S n)).

(** Three agents at one place; the outer two head toward 300 degrees, the
    one in the middle toward [h]. *)
Definition trio_with (h : float) : list (Boid float) :=
  [mkBoid (mkVector2f (b32_of_Z 0) (b32_of_Z 200)) (b32_of_Z 300) 0;
   mkBoid (mkVector2f (b32_of_Z 0) (b32_of_Z 200)) h 1;
   mkBoid (mkVector2f (b32_of_Z 0) (b32_of_Z 200)) (b32_of_Z 300) 2].

Definition trio : list (Boid float) := trio_with (b32_of_Z 0).

Definition here : Vector2f float := mkVector2f (b32_of_Z 0) (b32_of_Z 200).

(** Two agents at one place with the heading 0, in single precision. *)
Definition twins32 : list (Boid float) :=
  [mkBoid here (b32_of_Z 0) 0; mkBoid here (b32_of_Z 0) 1].

(** The shorter-arc distance between two headings, on exact rationals. *)
Definition arc_distance_Q (a b : Q) : Q :=
  Qmin (Qabs (a - b)) (360 - Qabs (a - b)).
(** The value of a float in units of 2^-149, the spacing of the smallest
    floats of the format: every finite float is a whole number of them. *)
Definition ulps (u : float) : Z :=
  match u with
  | S754_finite s m e => cond_Zopp s (Zpos m * 2 ^ (e + 149))
  | _ => 0%Z
  end.

(** One degree, in that unit. *)
Definition degree : Z := 2 ^ 149.

(** The floats that are numbers of the format: zeros, and finite floats
    in their canonical representation. *)
Definition number (u : float) : bool :=
  valid_binary prec emax u && is_finite u.

(** The numbers of [0, 360), -0 apart. *)
Definition in_range (h : float) : bool :=
  match h with
  | S754_zero false => true
  | S754_finite false m e =>
      SpecFloat.bounded prec emax m e && SFltb h (b32_of_Z 360)
  | _ => false
  end.

(** The shorter-arc distance between two headings, in units of 2^-149. *)
Definition arc_ulps (a b : Z) : Z :=
  Z.min (Z.abs (a - b)) (360 * degree - Z.abs (a - b)).

(** What one right shift of the rounding keeps of a mantissa [m0] after
    [k] shifts: the quotient, and of the remainder whether it reaches the
    half (round bit) and whether anything is left below it (sticky bit). *)
Definition shr_inv (m0 k : Z) (mrs : shr_record) : Prop :=
  exists rem : Z,
    (0 <= rem < 2 ^ k)%Z /\ (0 <= shr_m mrs)%Z /\
    m0 = (shr_m mrs * 2 ^ k + rem)%Z /\
    (shr_r mrs = true <-> (2 ^ k <= 2 * rem)%Z) /\
    (shr_s mrs = true <-> (rem <> 0 /\ 2 * rem <> 2 ^ k)%Z).
End Binary32.

(** ** Exact arithmetic *)

Module Exact.
Local Open Scope R_scope.

Definition Rltb (u v : R) : bool := if Rlt_dec u v then true else false.

(** The integer part of [r], rounded toward zero. *)
Definition Rtrunc (r : R) : Z :=
  if Rle_dec 0 r then Int_part r else (- Int_part (- r))%Z.

Definition Rfmod (u v : R) : R := u - IZR (Rtrunc (u / v)) * v.

(** [atan2] on the reals, with the value 0 at the origin as in C. *)
Definition Ratan2 (v u : R) : R :=
  if Rlt_dec 0 u then atan (v / u)
  else if Rlt_dec u 0 then
    (if Rle_dec 0 v then atan (v / u) + PI else atan (v / u) - PI)
  else if Rlt_dec 0 v then PI / 2
  else if Rlt_dec v 0 then - (PI / 2)
  else 0.

#[export] Instance arith : FloatArith R := {|
  of_Z := IZR;
  lit_pi := 3.141592653;
  M_PI := PI;
  fadd := Rplus;
  fsub := Rminus;
  fmul := Rmult;
  fdiv := Rdiv;
  fneg := Ropp;
  flt := Rltb;
  fabs := Rabs;
  fmod := Rfmod;
  sum_pow2 := fun u v => u ^ 2 + v ^ 2;
  sqrtf := sqrt
|}.

#[export] Instance trig : FloatTrig R := {|
  atan2 := Ratan2;
  fcos := cos;
  fsin := sin
|}.

(** The shorter-arc distance between two headings of [0, 360). *)
Definition arc_distance (a b : R) : R :=
  Rmin (Rabs (a - b)) (360 - Rabs (a - b)).

(** Two agents at the same place with the same heading. *)
Definition twins : list (Boid R) :=
  [mkBoid (mkVector2f 0 200) 0 0%nat; mkBoid (mkVector2f 0 200) 0 1%nat].
End Exact.

(** ** Construction, with the counter of identities *)

Section Construction.
Context {F : Type} {A : FloatArith F}.
Local Open Scope float_scope.

(** The number of values of [size_t]: [_id++] wraps around at it. *)
Variable size_modulus : nat.

(** [Boid::Boid(_pos, _rot)]: the static counter [_id] is read into [id]
    and incremented.  The state passed along is the value of the counter. *)
Definition Boid_new (_id : nat) (_pos : Vector2f F) (_rot : F) : Boid F * nat :=
  (mkBoid _pos _rot _id, Nat.modulo (S _id) size_modulus).

(** The loop of [System::System]: [remaining] iterations are left,
    [i] is the loop variable, [boids] the list built so far. *)
Fixpoint System_emplace (remaining i : nat) (boids : list (Boid F)) (_id : nat)
  : list (Boid F) * nat :=
  match remaining with
  | O => (boids, _id)
  | S remaining' =>
      let '(b, _id') :=
        Boid_new _id (mkVector2f (of_Z 20 * of_Z (Z.of_nat i)) (of_Z 200)) (of_Z 0) in
      System_emplace remaining' (S i) (boids ++ [b]) _id'
  end.

(** [System::System(n_boids)] called when the counter is [_id]: the flock
    and the counter afterwards. *)
Definition System_new (_id n_boids : nat) : list (Boid F) * nat :=
  System_emplace n_boids 0 [] _id.
End Construction.

(** The number of values of a [size_t] of 64 bits. *)
Definition size_t_values : nat := 2 ^ 64.

Section ExactFacts.
Import Exact.
Local Open Scope R_scope.

Lemma Rltb_true (u v : R) : Rltb u v = true <-> u < v.
Proof. unfold Rltb. destruct (Rlt_dec u v); split; intros; auto; discriminate. Qed.

Lemma Rltb_false (u v : R) : Rltb u v = false <-> v <= u.
Proof.
  unfold Rltb. destruct (Rlt_dec u v); split; intros; auto; try discriminate; lra.
Qed.

Lemma Rtrunc_bounds (r : R) :
  (0 <= r -> IZR (Rtrunc r) <= r < IZR (Rtrunc r) + 1) /\
  (r < 0 -> IZR (Rtrunc r) - 1 < r <= IZR (Rtrunc r)).
Proof.
  unfold Rtrunc. destruct (Rle_dec 0 r) as [Hr | Hr]; split; intros H; try lra.
  - destruct (base_Int_part r). lra.
  - destruct (base_Int_part (- r)). rewrite opp_IZR. lra.
Qed.

(** [fmod] by 360 stays strictly inside one turn and keeps the sign. *)
Lemma Rfmod_360 (u : R) :
  exists k : Z, Rfmod u 360 = u + 360 * IZR k /\
                (0 <= u -> 0 <= Rfmod u 360 < 360) /\
                (u < 0 -> -360 < Rfmod u 360 <= 0).
Proof.
  exists (- Rtrunc (u / 360))%Z. unfold Rfmod.
  destruct (Rtrunc_bounds (u / 360)) as [Hp Hn].
  set (t := IZR (Rtrunc (u / 360))) in *.
  assert (Hq : u = u / 360 * 360) by (field).
  rewrite opp_IZR. fold t. split; [ring|]. split; intros H.
  - assert (0 <= u / 360) by (apply Rmult_le_pos; lra). lra.
  - assert (u / 360 < 0) by (unfold Rdiv; nra). lra.
Qed.

(** On the reals, [normalize_angle] is the remainder of the floored
    division by 360. *)
Lemma normalize_angle_floored (theta : R) :
  exists k : Z, normalize_angle theta = theta + 360 * IZR k /\
                0 <= normalize_angle theta < 360.
Proof.
  unfold normalize_angle. cbn [fmod flt fadd of_Z arith].
  destruct (Rfmod_360 theta) as (k & Hk & Hp & Hn).
  destruct (Rltb (Rfmod theta 360) 0) eqn:E.
  - apply Rltb_true in E. exists (k + 1)%Z. rewrite plus_IZR.
    destruct (Rle_or_lt 0 theta); lra.
  - apply Rltb_false in E. exists k.
    destruct (Rle_or_lt 0 theta); lra.
Qed.

Lemma normalize_angle_range (theta : R) : 0 <= normalize_angle theta < 360.
Proof. destruct (normalize_angle_floored theta) as (k & _ & H). exact H. Qed.

(** Two reals of [0, 360) that differ by a multiple of 360 are equal. *)
Lemma turn_unique (a b : R) (k : Z) :
  0 <= a < 360 -> 0 <= b < 360 -> a = b + 360 * IZR k -> a = b.
Proof.
  intros Ha Hb E.
  assert (Hk : (-1 < k < 1)%Z) by (split; apply lt_IZR; lra).
  assert (k = 0%Z) by lia. subst k. lra.
Qed.


Lemma normalize_angle_fixed (theta : R) :
  0 <= theta < 360 -> normalize_angle theta = theta.
Proof.
  intros H. destruct (normalize_angle_floored theta) as (k & E & Hn).
  apply turn_unique with (k := k); auto.
Qed.

Lemma normalize_angle_idem (theta : R) :
  normalize_angle (normalize_angle theta) = normalize_angle theta.
Proof. apply normalize_angle_fixed, normalize_angle_range. Qed.
(** The nudge of [steering_nudge], in exact arithmetic, in terms of the
    two normalized headings. *)
Lemma steering_nudge_unfold (from to force : R) :
  steering_nudge from to force =
  let n_from := normalize_angle from in
  let n_to := normalize_angle to in
  let d := wrapped_difference n_from n_to in
  normalize_angle
    (n_from + (if Rltb 0 d then (if Rltb (Rabs d) force then Rabs d else force)
               else - (if Rltb (Rabs d) force then Rabs d else force))).
Proof. reflexivity. Qed.

Lemma wrapped_difference_unfold (a b : R) :
  wrapped_difference a b =
  if Rltb 180 (b - a) then b - a - 360
  else if Rltb (b - a) (- 180) then b - a + 360 else b - a.
Proof. reflexivity. Qed.

(** The wrapped difference is a signed shortest angular difference: it is
    congruent to [b - a] modulo 360 and its magnitude is the shorter arc. *)
Lemma wrapped_difference_shortest (a b : R) :
  0 <= a < 360 -> 0 <= b < 360 ->
  (exists k : Z, wrapped_difference a b = b - a + 360 * IZR k) /\
  Rabs (wrapped_difference a b) = arc_distance a b /\
  - 180 <= wrapped_difference a b <= 180.
Proof.
  intros Ha Hb. rewrite wrapped_difference_unfold. unfold arc_distance.
  destruct (Rltb 180 (b - a)) eqn:E1;
    [apply Rltb_true in E1 | apply Rltb_false in E1;
     destruct (Rltb (b - a) (- 180)) eqn:E2;
     [apply Rltb_true in E2 | apply Rltb_false in E2]].
  - split; [exists (-1)%Z; lra|].
    unfold Rmin, Rabs;
      repeat (destruct (Rcase_abs _)); repeat (destruct (Rle_dec _ _)); lra.
  - split; [exists 1%Z; lra|].
    unfold Rmin, Rabs;
      repeat (destruct (Rcase_abs _)); repeat (destruct (Rle_dec _ _)); lra.
  - split; [exists 0%Z; lra|].
    unfold Rmin, Rabs;
      repeat (destruct (Rcase_abs _)); repeat (destruct (Rle_dec _ _)); lra.
Qed.

(** A heading of [0, 360) moved by a step of at most half a turn and
    normalized again: where it lands. *)
Lemma normalize_angle_step (a s : R) :
  0 <= a < 360 -> - 180 <= s <= 180 ->
  let r := normalize_angle (a + s) in
  0 <= r < 360 /\ (r = a + s - 360 \/ r = a + s \/ r = a + s + 360).
Proof.
  intros Ha Hs r. subst r.
  destruct (normalize_angle_floored (a + s)) as (k & E & H).
  split; [exact H|].
  assert (Hk : (-2 < k < 2)%Z) by (split; apply lt_IZR; lra).
  assert (Hc : k = (-1)%Z \/ k = 0%Z \/ k = 1%Z) by lia.
  destruct Hc as [-> | [-> | ->]]; lra.
Qed.
Ltac split_Rmin_Rabs :=
  unfold Rmin, Rabs;
  repeat (destruct (Rcase_abs _)); repeat (destruct (Rle_dec _ _)); try lra.

Tactic Notation "case_Rltb" ident(E) :=
  match goal with
  | |- context [Rltb ?u ?v] =>
      destruct (Rltb u v) eqn:E; [apply Rltb_true in E | apply Rltb_false in E]
  end.

(** The clamped step of [steering_nudge]: it has the sign of the wrapped
    difference and the smaller of the two magnitudes. *)
Lemma clamped_step_bounds (d force : R) :
  0 <= force ->
  let adjustment := if Rltb (Rabs d) force then Rabs d else force in
  let step := if Rltb 0 d then adjustment else - adjustment in
  Rabs step <= force /\ Rabs step <= Rabs d /\ 0 <= step * d /\
  (Rabs d <= force -> step = d).
Proof.
  intros Hf adjustment step. subst adjustment step.
  case_Rltb E1; case_Rltb E2; revert E1 E2; unfold Rabs;
    repeat (destruct (Rcase_abs _)); intros; repeat split; try lra; try nra.
Qed.

(** In exact arithmetic, for every non-negative [max_step],
    [steering_nudge from to max_step] is a heading of [0, 360) whose
    shorter-arc distance from [normalize_angle from] is at most [max_step]
    and whose shorter-arc distance to [normalize_angle to] is at most the
    one [normalize_angle from] had; it is [normalize_angle from] moved by a
    step that has the sign of the signed shortest angular difference [d]
    and a magnitude of at most [max_step]. *)
Lemma steering_nudge_bounded_exact (from to max_step : R) :
  0 <= max_step ->
  let n_from := normalize_angle from in
  let n_to := normalize_angle to in
  let r := steering_nudge from to max_step in
  0 <= r < 360 /\
  arc_distance r n_from <= max_step /\
  arc_distance r n_to <= arc_distance n_from n_to /\
  exists (d step : R) (k : Z),
    d = n_to - n_from + 360 * IZR k /\ Rabs d = arc_distance n_from n_to /\
    0 <= step * d /\ Rabs step <= max_step /\
    r = normalize_angle (n_from + step).
Proof.
  intros Hf n_from n_to r. subst r. rewrite steering_nudge_unfold.
  fold n_from n_to. cbv zeta.
  assert (Ha : 0 <= n_from < 360) by apply normalize_angle_range.
  assert (Hb : 0 <= n_to < 360) by apply normalize_angle_range.
  destruct (wrapped_difference_shortest Ha Hb) as ((k & Hk) & Habs & Hd).
  set (d := wrapped_difference n_from n_to) in *.
  destruct (clamped_step_bounds d Hf) as (Hs1 & Hs2 & Hs3 & _).
  cbv zeta in Hs1, Hs2, Hs3.
  set (step := if Rltb 0 d then if Rltb (Rabs d) max_step then Rabs d else max_step
               else - (if Rltb (Rabs d) max_step then Rabs d else max_step)) in *.
  assert (Hstep : - 180 <= step <= 180)
    by (revert Hs2; unfold Rabs; repeat (destruct (Rcase_abs _)); lra).
  destruct (normalize_angle_step Ha Hstep) as (Hr & Hc). cbv zeta in Hr, Hc.
  set (r := normalize_angle (n_from + step)) in *.
  split; [exact Hr|]. split; [|split].
  - revert Hs1. unfold arc_distance.
    destruct Hc as [E | [E | E]]; rewrite E; split_Rmin_Rabs.
  - rewrite <- Habs. revert Hs2 Hs3. unfold arc_distance. rewrite Hk.
    assert (Hkk : (-2 < k < 2)%Z) by (split; apply lt_IZR; lra).
    assert (Hk3 : k = (-1)%Z \/ k = 0%Z \/ k = 1%Z) by lia. clear Hkk.
    destruct Hk3 as [-> | [-> | ->]];
      destruct Hc as [E | [E | E]]; rewrite E; rewrite Hk in Hd;
      unfold Rmin, Rabs;
      repeat (destruct (Rcase_abs _)); repeat (destruct (Rle_dec _ _));
      intros; try lra; try nra.
  - exists d, step, k. repeat split; auto.
Qed.

Lemma steering_nudge_bounded_exact_witness :
  0 <= 90 /\
  arc_distance (steering_nudge 725 (- 10) 90) (normalize_angle 725) <= 90.
Proof.
  split; [lra|].
  apply (steering_nudge_bounded_exact 725 (- 10) (max_step := 90)). lra.
Defined.



End ExactFacts.

(** ** Single precision: where rounding shows *)

Section Binary32Facts.
Import Binary32.
Local Open Scope float_scope.

(** [normalize_angle] on some ordinary inputs, in single precision. *)
Example normalize_angle_725 : normalize_angle (b32_of_Z 725) = b32_of_Z 5.
Proof. vm_compute. reflexivity. Qed.

Example normalize_angle_minus_725 : normalize_angle (b32_of_Z (- 725)) = b32_of_Z 355.
Proof. vm_compute. reflexivity. Qed.

Example normalize_angle_360 : normalize_angle (b32_of_Z 360) = S754_zero false.
Proof. vm_compute. reflexivity. Qed.

(** The nudge takes the short way across 0 and stops at the target. *)
Example steering_nudge_across_zero :
  steering_nudge (b32_of_Z 10) (b32_of_Z 350) (b32_of_Z 5) = b32_of_Z 5 /\
  steering_nudge (b32_of_Z 10) (b32_of_Z 350) (b32_of_Z 15) = b32_of_Z 355 /\
  steering_nudge (b32_of_Z 350) (b32_of_Z 10) (b32_of_Z 30) = b32_of_Z 10 /\
  steering_nudge (b32_of_Z 0) (b32_of_Z 180) (b32_of_Z 90) = b32_of_Z 90.
Proof. repeat split; vm_compute; reflexivity. Qed.

(** The factor of [degrees_to_radians] is the float 9370165 * 2^-29
    (0.017453292); 180 degrees are converted to the float nearest to pi. *)
Example degrees_to_radians_180 :
  lit_pi / of_Z 180 = S754_finite false 9370165 (- 29) /\
  degrees_to_radians (b32_of_Z 180) = narrow M_PI_double /\
  degrees_to_radians (b32_of_Z 0) = S754_zero false.
Proof. repeat split; vm_compute; reflexivity. Qed.

(** A float that is not a NaN compares equal to itself. *)
Lemma SFcompare_refl (u : float) : u <> S754_nan -> SFcompare u u = Some Eq.
Proof.
  destruct u as [s | s | | s m e]; intros H; try reflexivity.
  - destruct s; reflexivity.
  - contradiction.
  - cbn. rewrite Z.compare_refl.
    assert (E : Pos.compare_cont Eq m m = Eq) by apply Pos.compare_refl.
    rewrite E. destruct s; reflexivity.
Qed.

(** In single precision too, the adjustment of [steering_nudge] is at most
    the budget: what can exceed the budget is the rounding of the sum
    [n_from + adjustment] and of the normalization after it. *)
Lemma adjustment_within_budget (difference steering_force : float) :
  steering_force <> S754_nan ->
  SFleb (if fabs difference <? steering_force then fabs difference
         else steering_force) steering_force = true.
Proof.
  intros H. destruct (fabs difference <? steering_force) eqn:E.
  - cbn [flt arith] in E. unfold SFltb in E. unfold SFleb.
    destruct (SFcompare (fabs difference) steering_force) as [[ | | ] |];
      try discriminate; reflexivity.
  - unfold SFleb. rewrite (SFcompare_refl H). reflexivity.
Qed.

(** The input of the next theorem is the float -2^-30. *)
Example tiny_negative_value : (to_Q (fneg (pow2 (- 30))) == - (1 # 1073741824))%Q.
Proof. vm_compute. reflexivity. Qed.

(** C3, at the failing input -2^-30: [fmod] leaves the input as it is, the
    test [theta < 0] succeeds, and the float sum [theta + 360] rounds to
    360 (the floats next to 360 are 2^-15 apart); the value returned is not
    below 360. *)
Theorem normalize_angle_returns_360 :
  normalize_angle (- pow2 (- 30)) = b32_of_Z 360 /\
  (normalize_angle (- pow2 (- 30)) <? b32_of_Z 360) = false.
Proof. split; vm_compute; reflexivity. Qed.

(** The same on the write path of the headings: a heading of 2^-30 degrees
    nudged toward 359 degrees with a step budget of 2^-29 is assigned 360. *)
Theorem steering_nudge_returns_360 :
  (b32_of_Z 0 <? pow2 (- 30)) = true /\
  steering_nudge (pow2 (- 30)) (b32_of_Z 359) (pow2 (- 29)) = b32_of_Z 360 /\
  (steering_nudge (pow2 (- 30)) (b32_of_Z 359) (pow2 (- 29)) <? b32_of_Z 360) = false.
Proof. repeat split; vm_compute; reflexivity. Qed.

(** Where the rounding of the sum shows: from heading 1 toward 90 with the
    budget 2^-24 + 2^-40, the float sum [n_from + adjustment] rounds up to
    1 + 2^-23, and the heading has moved by 2^-24 - 2^-40 more than the
    budget, which is less than half the spacing of the floats at 1. *)
Lemma steering_nudge_exceeds_budget :
  let max_step := pow2 (- 24) + pow2 (- 40) in
  let r := steering_nudge (b32_of_Z 1) (b32_of_Z 90) max_step in
  (b32_of_Z 0 <? max_step) = true /\
  r = b32_of_Z 1 + pow2 (- 23) /\
  ~ (arc_distance_Q (to_Q r) (to_Q (normalize_angle (b32_of_Z 1))) <= to_Q max_step)%Q /\
  (arc_distance_Q (to_Q r) (to_Q (normalize_angle (b32_of_Z 1))) - to_Q max_step
   == to_Q (pow2 (- 24)) - to_Q (pow2 (- 40)))%Q.
Proof.
  cbv zeta. split; [vm_compute; reflexivity|]. split; [vm_compute; reflexivity|].
  split; [apply Qlt_not_le|]; vm_compute; reflexivity.
Qed.

End Binary32Facts.

(** ** The flock update: data flow, for every interpretation *)

Section FlockFacts.
Context {F : Type} {A : FloatArith F} {T : FloatTrig F}.
Local Open Scope float_scope.

Lemma pos_set_rot (b : Boid F) (r : F) : pos (set_rot b r) = pos b.
Proof. reflexivity. Qed.

Lemma id_set_rot (b : Boid F) (r : F) : id (set_rot b r) = id b.
Proof. reflexivity. Qed.

Lemma in_ring_places (x y y' : Boid F) :
  pos y = pos y' -> id y = id y' -> in_ring x y = in_ring x y'.
Proof. unfold in_ring, boid_eqb. intros -> ->. reflexivity. Qed.

Lemma boid_angles_places (l l' : list (Boid F)) (x : Boid F) :
  places l = places l' -> boid_angles l x = boid_angles l' x.
Proof.
  unfold boid_angles. revert l'.
  induction l as [| y l IH]; intros [| y' l'] H; try discriminate; auto.
  cbn in H. injection H as Hp Hi Hl. cbn [filter].
  rewrite (in_ring_places x y y' Hp Hi).
  destruct (in_ring x y'); cbn [map]; rewrite (IH l' Hl), ?Hp; reflexivity.
Qed.

Lemma separate_places (dt : F) (l l' : list (Boid F)) (x : Boid F) :
  places l = places l' -> separate dt l x = separate dt l' x.
Proof. intros H. unfold separate. rewrite (boid_angles_places l l' x H). reflexivity. Qed.

Lemma separate_keeps_place (dt : F) (l : list (Boid F)) (x : Boid F) :
  pos (separate dt l x) = pos x /\ id (separate dt l x) = id x.
Proof. unfold separate. destruct (boid_angles l x); split; reflexivity. Qed.

(** The loop invariant of the separation pass: the agents already visited
    are the images of the snapshot's, and the list being iterated still has
    the places of the snapshot. *)
Lemma separation_loop_snapshot (dt : F) (snapshot pending visited : list (Boid F)) :
  places (visited ++ pending) = places snapshot ->
  separation_loop dt visited pending
  = visited ++ map (separate dt snapshot) pending.
Proof.
  revert visited. induction pending as [| x rest IH]; intros visited H.
  - cbn. rewrite app_nil_r. reflexivity.
  - cbn [separation_loop map]. rewrite IH.
    + rewrite <- app_assoc. cbn [app].
      rewrite (separate_places dt (visited ++ x :: rest) snapshot x H).
      reflexivity.
    + rewrite <- H. unfold places. rewrite <- app_assoc, !map_app. cbn [app map].
      destruct (separate_keeps_place dt (visited ++ x :: rest) x) as [-> ->].
      reflexivity.
Qed.

(** In place or from a snapshot, the separation pass computes the same. *)
Lemma separation_snapshot (dt : F) (boids : list (Boid F)) :
  separation dt boids = map (separate dt boids) boids.
Proof. exact (@separation_loop_snapshot dt boids boids [] eq_refl). Qed.

Lemma zip_with_map {X Y Z : Type} (f : X -> Y -> Z) (g : X -> Y) (l : list X) :
  zip_with f l (map g l) = map (fun a => f a (g a)) l.
Proof. induction l as [| a l IH]; cbn; [|rewrite IH]; reflexivity. Qed.

Lemma apply_separation_bearing (dt : F) (snapshot : list (Boid F)) (a : Boid F) :
  apply_separation dt a (mean_neighbor_bearing snapshot a) = separate dt snapshot a.
Proof.
  unfold apply_separation, mean_neighbor_bearing, separate.
  destruct (boid_angles snapshot a); reflexivity.
Qed.

Lemma ref_separation_eq (dt : F) (boids : list (Boid F)) :
  ref_separation dt boids = separation dt boids.
Proof.
  unfold ref_separation. rewrite zip_with_map, separation_snapshot.
  apply map_ext. intros a. apply apply_separation_bearing.
Qed.

Lemma ref_cohesion_eq (dt : F) (boids : list (Boid F)) :
  ref_cohesion dt boids = cohesion dt boids.
Proof. unfold ref_cohesion, cohesion. rewrite zip_with_map. reflexivity. Qed.

Lemma ref_alignment_eq (dt : F) (boids : list (Boid F)) :
  ref_alignment dt boids = alignment dt boids.
Proof. unfold ref_alignment, alignment. rewrite zip_with_map. reflexivity. Qed.

Lemma ref_movement_eq (dt : F) (boids : list (Boid F)) :
  ref_movement dt boids = movement dt boids.
Proof. unfold ref_movement, movement. rewrite zip_with_map. reflexivity. Qed.

(** C5: the in-place update computes, for every flock and every
    [delta_time], what the update of the specification computes, which
    takes the aggregate values of each of the four passes from a snapshot
    before it applies the nudges; in the separation pass, the only one that
    reads the list while it writes it, every agent's new value is a function
    of the snapshot. *)
Theorem update_refines_reference (delta_time : F) (boids : list (Boid F)) :
  update delta_time boids = ref_update delta_time boids /\
  separation delta_time boids = map (separate delta_time boids) boids.
Proof.
  split; [|apply separation_snapshot].
  unfold update, ref_update.
  rewrite ref_separation_eq, ref_cohesion_eq, ref_alignment_eq, ref_movement_eq.
  reflexivity.
Qed.

(** C6: in the separation pass, the heading (and everything else) of an
    agent that has no other agent strictly inside the ring of 20 units is
    left as it was. *)
Theorem separation_without_neighbor
  (delta_time : F) (boids : list (Boid F)) (i : nat) (x : Boid F) :
  nth_error boids i = Some x ->
  (forall y, In y boids -> boid_eqb x y = false ->
             (distance (pos x) (pos y) <? of_Z 20) = false) ->
  nth_error (separation delta_time boids) i = Some x.
Proof.
  intros Hx Hfar. rewrite separation_snapshot, nth_error_map, Hx. cbn.
  f_equal. unfold separate, boid_angles.
  replace (filter (in_ring x) boids) with (@nil (Boid F)); [reflexivity|].
  symmetry. clear Hx. induction boids as [| y l IH]; [reflexivity|].
  cbn [filter]. rewrite IH by (intros; apply Hfar; [right|]; assumption).
  unfold in_ring. destruct (boid_eqb x y) eqn:E; [reflexivity|].
  unfold separationRing. rewrite (Hfar y (or_introl eq_refl) E). reflexivity.
Qed.
(** The three steering passes leave every agent in its place: they write
    headings only. *)
Lemma nth_error_separation (dt : F) (boids : list (Boid F)) (i : nat) (b : Boid F) :
  nth_error boids i = Some b ->
  nth_error (separation dt boids) i = Some (separate dt boids b).
Proof. intros H. rewrite separation_snapshot, nth_error_map, H. reflexivity. Qed.

Lemma nth_error_steering (dt : F) (boids : list (Boid F)) (i : nat) (b : Boid F) :
  nth_error boids i = Some b ->
  exists heading : F,
    nth_error (alignment dt (cohesion dt (separation dt boids))) i
    = Some (mkBoid (pos b) heading (id b)).
Proof.
  intros H. apply (nth_error_separation dt) in H.
  destruct (separate_keeps_place dt boids b) as [Hp Hi].
  unfold alignment, cohesion. rewrite !nth_error_map, H. cbn.
  unfold set_rot. cbn [pos id]. rewrite Hp, Hi. eexists. reflexivity.
Qed.

(** C7: the movement pass adds to the position of every agent the vector
    (cos, sin) of its heading after the alignment pass, times 10 times
    [delta_time]. The heading is in degrees and is converted to radians
    before the cosine and the sine are taken: the angle handed to them is
    the heading times the quotient of the literal 3.141592653f by 180,
    which is what [degrees_to_radians] returns. The position is the one the
    agent had before the update, and the pass does not change the heading. *)
Theorem movement_advances
  (delta_time : F) (boids : list (Boid F)) (i : nat) (b : Boid F) :
  nth_error boids i = Some b ->
  exists heading radians : F,
    nth_error (alignment delta_time (cohesion delta_time (separation delta_time boids))) i
    = Some (mkBoid (pos b) heading (id b)) /\
    radians = heading * (lit_pi / of_Z 180) /\
    degrees_to_radians heading = radians /\
    nth_error (update delta_time boids) i
    = Some (mkBoid
              (mkVector2f
                 (vx (pos b) + fcos radians * of_Z 10 * delta_time)
                 (vy (pos b) + fsin radians * of_Z 10 * delta_time))
              heading (id b)).
Proof.
  intros H. destruct (nth_error_steering delta_time boids i H) as (heading & E).
  exists heading, (heading * (lit_pi / of_Z 180)).
  split; [exact E|]. split; [reflexivity|]. split; [reflexivity|].
  unfold update, movement. rewrite nth_error_map, E. reflexivity.
Qed.

(** *** Flocks whose agents coincide *)

Lemma uniform_map (f : Boid F -> Boid F) (p p' : Vector2f F) (h h' : F)
      (l : list (Boid F)) :
  (forall b, pos b = p -> rot b = h -> pos (f b) = p' /\ rot (f b) = h') ->
  uniform p h l -> uniform p' h' (map f l).
Proof.
  intros Hf Hl b' Hb'. apply in_map_iff in Hb' as (b & <- & Hb).
  destruct (Hl b Hb). apply Hf; assumption.
Qed.

(** With identities that are pairwise distinct, every agent of the list
    has all the others as its "others". *)
Lemma others_length (l : list (Boid F)) (x : Boid F) :
  NoDup (map (@id F) l) -> In x l ->
  length (filter (fun y => negb (boid_eqb x y)) l) = pred (length l).
Proof.
  unfold boid_eqb. induction l as [| y l IH]; intros Hnd Hx; [contradiction|].
  cbn [map] in Hnd. apply NoDup_cons_iff in Hnd as [Hy Hnd].
  cbn [filter length pred]. destruct Hx as [-> | Hx].
  - rewrite Nat.eqb_refl. cbn [negb].
    rewrite forallb_filter_id; [reflexivity|].
    apply forallb_forall. intros z Hz.
    destruct (Nat.eqb (id x) (id z)) eqn:E; [|reflexivity].
    apply Nat.eqb_eq in E. exfalso. apply Hy. rewrite E. apply in_map. exact Hz.
  - destruct (Nat.eqb (id x) (id y)) eqn:E.
    + apply Nat.eqb_eq in E. exfalso. apply Hy. rewrite <- E. apply in_map. exact Hx.
    + cbn [negb length]. rewrite (IH Hnd Hx).
      destruct l; [contradiction|reflexivity].
Qed.

(** In a flock of agents that stand at one place [p], every agent collects
    the same list of bearings: one [angle_to p p] per other agent if [p] is
    inside its own ring, none otherwise. *)
Lemma boid_angles_same_place (l : list (Boid F)) (p : Vector2f F) (x : Boid F) :
  NoDup (map (@id F) l) -> (forall b, In b l -> pos b = p) -> In x l ->
  boid_angles l x
  = if distance p p <? separationRing
    then repeat (angle_to p p) (pred (length l)) else [].
Proof.
  intros Hnd Hu Hx. unfold boid_angles. pose proof (Hu x Hx) as Hpx.
  assert (Hf : filter (in_ring x) l
               = if distance p p <? separationRing
                 then filter (fun y => negb (boid_eqb x y)) l else []).
  { clear Hnd Hx. induction l as [| y l IH]; [destruct (_ <? _); reflexivity|].
    cbn [filter]. rewrite IH by (intros b Hb; apply Hu; right; exact Hb).
    unfold in_ring. rewrite (Hu y (or_introl eq_refl)), Hpx.
    destruct (distance p p <? separationRing);
      destruct (boid_eqb x y); reflexivity. }
  rewrite Hf. destruct (distance p p <? separationRing); [|reflexivity].
  rewrite <- (others_length l x Hnd Hx).
  assert (Hall : forall y, In y (filter (fun y => negb (boid_eqb x y)) l) -> pos y = p)
    by (intros y Hy; apply filter_In in Hy as [Hy _]; apply (Hu y Hy)).
  revert Hall. generalize (filter (fun y => negb (boid_eqb x y)) l).
  rewrite Hpx. intros l' Hall. induction l' as [| y l' IH]; [reflexivity|].
  cbn [map length repeat]. rewrite (Hall y (or_introl eq_refl)), IH; [reflexivity|].
  intros z Hz. apply Hall. right. exact Hz.
Qed.

Lemma boid_angles_coincident (l : list (Boid F)) (p : Vector2f F) (h : F) :
  NoDup (map (@id F) l) -> uniform p h l ->
  exists angles : list F, forall x, In x l -> boid_angles l x = angles.
Proof.
  intros Hnd Hu. eexists. intros x Hx.
  apply (boid_angles_same_place l (p := p) x Hnd); [|exact Hx].
  intros b Hb. apply (Hu b Hb).
Qed.

Lemma ticks_S (n : nat) (dt : F) (l : list (Boid F)) :
  ticks (S n) dt l = ticks n dt (update dt l).
Proof. reflexivity. Qed.

(** A lone agent has no neighbour. *)
Lemma separation_single (dt : F) (b : Boid F) : separation dt [b] = [b].
Proof.
  rewrite separation_snapshot. unfold separate, boid_angles, in_ring, boid_eqb.
  cbn [map filter]. rewrite Nat.eqb_refl. reflexivity.
Qed.

Lemma map_rot_movement (dt : F) (l : list (Boid F)) :
  map (@rot F) (movement dt l) = map (@rot F) l.
Proof. unfold movement. rewrite map_map. reflexivity. Qed.

(** C8, as amended: in a flock of agents (with pairwise distinct
    identities) that all share one position and one heading, every pass of
    one update gives every agent the same heading, the cohesion pass by a
    nudge toward the bearing from the shared position to the centroid, and
    the movement pass adds the same displacement to every position: the
    agents still share position and heading afterwards. *)
Theorem coincident_flock_stays_coincident
  (delta_time : F) (boids : list (Boid F)) (p : Vector2f F) (h : F) :
  NoDup (map (@id F) boids) ->
  uniform p h boids ->
  exists h1 h2 h3 : F,
    uniform p h1 (separation delta_time boids) /\
    h2 = steering_nudge h1 (angle_to p (center (separation delta_time boids)))
                        (cohesion_force * delta_time) /\
    uniform p h2 (cohesion delta_time (separation delta_time boids)) /\
    uniform p h3 (alignment delta_time
                    (cohesion delta_time (separation delta_time boids))) /\
    uniform (vadd p (displacement delta_time h3)) h3 (update delta_time boids).
Proof.
  intros Hnd Hu.
  destruct (boid_angles_coincident Hnd Hu) as (angles & Hangles).
  set (h1 := match angles with
             | [] => h
             | _ => steering_nudge h (opposite_angle (mean angles))
                                   (separation_force * delta_time)
             end).
  assert (U1 : uniform p h1 (separation delta_time boids)).
  { rewrite separation_snapshot. intros b' Hb'.
    apply in_map_iff in Hb' as (b & <- & Hb). destruct (Hu b Hb) as [Hp Hr].
    unfold separate. rewrite (Hangles b Hb). subst h1.
    destruct angles; cbn; rewrite ?Hr; auto. }
  set (s1 := separation delta_time boids) in *.
  set (h2 := steering_nudge h1 (angle_to p (center s1)) (cohesion_force * delta_time)).
  assert (U2 : uniform p h2 (cohesion delta_time s1)).
  { unfold cohesion. apply (uniform_map _ (p := p) (h := h1)); [|exact U1].
    intros b Hp Hr. unfold set_rot. cbn [pos rot]. rewrite Hp, Hr. split; reflexivity. }
  set (s2 := cohesion delta_time s1) in *.
  set (h3 := steering_nudge h2 (average_rotation s2) (alignment_force * delta_time)).
  assert (U3 : uniform p h3 (alignment delta_time s2)).
  { unfold alignment. apply (uniform_map _ (p := p) (h := h2)); [|exact U2].
    intros b Hp Hr. unfold set_rot. cbn [pos rot]. rewrite Hp, Hr. split; reflexivity. }
  exists h1, h2, h3.
  split; [exact U1|]. split; [reflexivity|]. split; [exact U2|]. split; [exact U3|].
  unfold update, movement. fold s1 s2.
  apply (uniform_map _ (p := p) (h := h3)); [|exact U3].
  intros b Hp Hr. unfold set_pos. cbn [pos rot]. rewrite Hp, Hr. split; reflexivity.
Qed.
End FlockFacts.

(** ** Single precision: the value of a rounded result *)

Section Rounding32.
Import Binary32.
Local Open Scope Z_scope.

Lemma fexp_eq (e : Z) : fexp prec emax e = Z.max (e - 24) (- 149).
Proof. reflexivity. Qed.

Lemma digits2_pos_bounds (m : positive) :
  2 ^ (Zpos (digits2_pos m) - 1) <= Zpos m < 2 ^ Zpos (digits2_pos m).
Proof.
  induction m as [p IH | p IH |]; cbn [digits2_pos].
  - rewrite Pos2Z.inj_succ, (Pos2Z.inj_xI p).
    replace (Z.succ (Zpos (digits2_pos p)) - 1) with (Z.succ (Zpos (digits2_pos p) - 1)) by lia.
    rewrite !Z.pow_succ_r by lia. lia.
  - rewrite Pos2Z.inj_succ, (Pos2Z.inj_xO p).
    replace (Z.succ (Zpos (digits2_pos p)) - 1) with (Z.succ (Zpos (digits2_pos p) - 1)) by lia.
    rewrite !Z.pow_succ_r by lia. lia.
  - cbn. lia.
Qed.

(** The number of digits is the only [d] with [2^(d-1) <= m < 2^d]. *)
Lemma digits2_pos_unique (m : positive) (d : Z) :
  2 ^ (d - 1) <= Zpos m < 2 ^ d -> Zpos (digits2_pos m) = d.
Proof.
  intros [H1 H2]. pose proof (digits2_pos_bounds m) as [H3 H4].
  set (k := Zpos (digits2_pos m)) in *.
  assert (Hk : 0 < k) by (unfold k; lia).
  assert (Hd : 0 < d).
  { destruct (Z_lt_le_dec 0 d) as [|Hd]; [assumption|].
    assert (2 ^ d <= 2 ^ 0) by (apply Z.pow_le_mono_r; lia).
    change (2 ^ 0) with 1 in *. lia. }
  destruct (Z_lt_le_dec k d) as [Hlt|Hge].
  - assert (2 ^ k <= 2 ^ (d - 1)) by (apply Z.pow_le_mono_r; lia). lia.
  - destruct (Z_lt_le_dec d k) as [Hlt'|Hge']; [|lia].
    assert (2 ^ d <= 2 ^ (k - 1)) by (apply Z.pow_le_mono_r; lia). lia.
Qed.

(** [d] left shifts multiply a mantissa by [2^d] and add [d] digits. *)
Lemma iter_xO_value (m d : positive) :
  Zpos (Pos.iter xO m d) = Zpos m * 2 ^ Zpos d.
Proof.
  induction d as [| d IH] using Pos.peano_ind.
  - cbn. lia.
  - rewrite Pos.iter_succ, (Pos2Z.inj_xO (Pos.iter xO m d)), IH, Pos2Z.inj_succ,
      Z.pow_succ_r by lia.
    ring.
Qed.

Lemma iter_xO_digits (m d : positive) :
  Zpos (digits2_pos (Pos.iter xO m d)) = Zpos (digits2_pos m) + Zpos d.
Proof.
  apply digits2_pos_unique. rewrite iter_xO_value.
  pose proof (digits2_pos_bounds m) as [H1 H2].
  replace (Zpos (digits2_pos m) + Zpos d - 1)
    with ((Zpos (digits2_pos m) - 1) + Zpos d) by lia.
  rewrite !Z.pow_add_r by lia.
  assert (0 < 2 ^ Zpos d) by (apply Z.pow_pos_nonneg; lia).
  split; nia.
Qed.

(** *** The right shifts *)

Lemma shr_inv_start (m0 : Z) :
  0 <= m0 -> shr_inv m0 0 (Build_shr_record m0 false false).
Proof.
  intros H. exists 0. cbn [shr_m shr_r shr_s]. change (2 ^ 0) with 1.
  repeat split; try lia; try discriminate.
Qed.

Lemma shr_inv_step (m0 k : Z) (mrs : shr_record) :
  0 <= k -> shr_inv m0 k mrs -> shr_inv m0 (k + 1) (shr_1 mrs).
Proof.
  intros Hk (rem & Hrem & Hm & E & Hr & Hs).
  assert (Hp : 0 < 2 ^ k) by (apply Z.pow_pos_nonneg; lia).
  assert (Hp' : 2 ^ (k + 1) = 2 * 2 ^ k) by (rewrite Z.pow_add_r by lia; ring).
  destruct mrs as [m r s]. cbn [shr_m shr_r shr_s] in *.
  destruct m as [| [p | p |] | p]; [| | | |lia]; cbn [shr_1 shr_m shr_r shr_s].
  - exists rem. cbn [shr_m shr_r shr_s]. rewrite Hp'.
    destruct r, s; cbn [orb]; intuition (try discriminate; try lia).
  - exists (2 ^ k + rem). cbn [shr_m shr_r shr_s]. rewrite Hp'.
    rewrite (Pos2Z.inj_xI p) in E.
    destruct r, s; cbn [orb]; intuition (try discriminate; try lia).
  - exists rem. cbn [shr_m shr_r shr_s]. rewrite Hp'.
    rewrite (Pos2Z.inj_xO p) in E.
    destruct r, s; cbn [orb]; intuition (try discriminate; try lia).
  - exists (2 ^ k + rem). cbn [shr_m shr_r shr_s]. rewrite Hp'.
    destruct r, s; cbn [orb]; intuition (try discriminate; try lia).
Qed.

(** [p] right shifts keep the invariant. *)
Lemma shr_inv_iter (m0 : Z) (p : positive) :
  forall (k : Z) (mrs : shr_record),
    0 <= k -> shr_inv m0 k mrs -> shr_inv m0 (k + Zpos p) (SpecFloat.iter_pos shr_1 p mrs).
Proof.
  induction p as [p IH | p IH |]; intros k mrs Hk H; cbn [SpecFloat.iter_pos].
  - replace (k + Zpos p~1) with (k + 1 + Zpos p + Zpos p) by lia.
    apply IH; [lia|]. apply IH; [lia|]. apply shr_inv_step; assumption.
  - replace (k + Zpos p~0) with (k + Zpos p + Zpos p) by lia.
    apply IH; [lia|]. apply IH; assumption.
  - apply shr_inv_step; assumption.
Qed.

(** Rounding to nearest, ties to even, moves the shifted mantissa by at
    most half a unit, and not at all when nothing was shifted out. *)
Lemma round_nearest_even_error (m0 k : Z) (mrs : shr_record) :
  0 <= k -> shr_inv m0 k mrs ->
  let m := round_nearest_even (shr_m mrs) (loc_of_shr_record mrs) in
  shr_m mrs <= m <= shr_m mrs + 1 /\
  2 * Z.abs (m * 2 ^ k - m0) <= 2 ^ k /\
  (m0 mod 2 ^ k = 0 -> m * 2 ^ k = m0).
Proof.
  intros Hk (rem & Hrem & Hm & E & Hr & Hs). cbv zeta.
  assert (Hp : 0 < 2 ^ k) by (apply Z.pow_pos_nonneg; lia).
  assert (Hmod : m0 mod 2 ^ k = rem).
  { rewrite E, Z.add_comm, Z.mod_add by lia. apply Z.mod_small. lia. }
  destruct mrs as [m r s]. cbn [shr_m shr_r shr_s loc_of_shr_record] in *.
  destruct r, s; cbn [round_nearest_even]; try destruct (Z.even m);
    (split; [lia|]); (split; [|intros H0; rewrite Hmod in H0]);
    intuition (try discriminate; try nia).
Qed.

(** *** [binary_round] *)

(** Rounding a mantissa that carries at most [n] digits too many, with an
    exponent [e] of the format's range: the result is a number of the
    format, and it is away from the exact value by at most half of
    [2^n], in units of [2^e]. *)
Lemma binary_round_aux_spec (s : bool) (m : positive) (e : Z) :
  let d := Zpos (digits2_pos m) in
  let n := fexp prec emax (d + e) - e in
  - 149 <= e -> d + e <= 127 -> 0 <= n ->
  exists (m' : positive) (e' : Z),
    binary_round_aux prec emax s (Zpos m) e loc_Exact = S754_finite s m' e' /\
    SpecFloat.bounded prec emax m' e' = true /\
    e <= e' /\
    2 * Z.abs (Zpos m' * 2 ^ (e' - e) - Zpos m) <= 2 ^ n /\
    (n = 0 -> Zpos m' * 2 ^ (e' - e) = Zpos m).
Proof.
  intros d n He Hd Hn. subst n. set (n := fexp prec emax (d + e) - e) in *.
  pose proof (digits2_pos_bounds m) as Hm. fold d in Hm.
  assert (Hd0 : 0 < d) by (unfold d; lia).
  unfold binary_round_aux, shr_fexp. cbn [Zdigits2]. fold d. fold n.
  destruct n as [| p | p] eqn:En; [| |lia].
  - (* nothing to shift *)
    cbn [shr shr_record_of_loc shr_m loc_of_shr_record round_nearest_even Zdigits2].
    fold d. fold n. rewrite En. cbn [shr shr_m].
    assert (Hf : fexp prec emax (d + e) = e) by (unfold n in En; lia).
    assert (Hle : (e <=? emax - prec) = true).
    { apply Z.leb_le. rewrite fexp_eq in Hf. unfold emax, prec. lia. }
    rewrite Hle. exists m, e. split; [reflexivity|]. split.
    + unfold SpecFloat.bounded, canonical_mantissa. fold d. rewrite Hf, Z.eqb_refl, Hle.
      reflexivity.
    + rewrite Z.sub_diag. change (2 ^ 0) with 1. lia.
  - (* [p] digits are shifted out: the mantissa has more than 24 digits *)
    assert (Hp : Zpos p = d - 24) by (unfold n in En; rewrite fexp_eq in En; lia).
    cbn [shr shr_record_of_loc].
    pose proof (@shr_inv_iter (Zpos m) p 0 _ (Z.le_refl 0)
                  (@shr_inv_start (Zpos m) (Pos2Z.is_nonneg m))) as Hinv.
    rewrite Z.add_0_l in Hinv.
    set (mrs := SpecFloat.iter_pos shr_1 p _) in *.
    pose proof (@round_nearest_even_error (Zpos m) (Zpos p) mrs
                  (Pos2Z.is_nonneg p) Hinv) as (Hr1 & Hr2 & _).
    cbv zeta in Hr1, Hr2.
    set (mr := round_nearest_even (shr_m mrs) (loc_of_shr_record mrs)) in *.
    destruct Hinv as (rem & Hrem & Hq0 & Eq & _).
    set (q := shr_m mrs) in *.
    assert (Hpow : 2 ^ d = 2 ^ 24 * 2 ^ Zpos p)
      by (rewrite <- Z.pow_add_r by lia; f_equal; lia).
    assert (Hpow' : 2 ^ (d - 1) = 2 ^ 23 * 2 ^ Zpos p)
      by (rewrite <- Z.pow_add_r by lia; f_equal; lia).
    assert (Hpp : 0 < 2 ^ Zpos p) by (apply Z.pow_pos_nonneg; lia).
    assert (Hq : 2 ^ 23 <= q < 2 ^ 24) by (split; nia).
    destruct (Z.eq_dec mr (2 ^ 24)) as [Hc | Hc].
    + (* the rounding carries into a 25th digit *)
      rewrite Hc. change (2 ^ 24) with (Zpos (Pos.iter xO 1%positive 24)).
      cbn [Zdigits2].
      replace (fexp prec emax (Zpos (digits2_pos (Pos.iter xO 1%positive 24)) + (e + Zpos p))
               - (e + Zpos p)) with 1
        by (rewrite fexp_eq; change (Zpos (digits2_pos (Pos.iter xO 1%positive 24))) with 25; lia).
      cbn [shr shr_record_of_loc SpecFloat.iter_pos shr_1 Pos.iter shr_m].
      assert (Hle : (e + Zpos p + 1 <=? emax - prec) = true)
        by (apply Z.leb_le; unfold emax, prec; lia).
      rewrite Hle. eexists _, _. split; [reflexivity|]. split.
      * unfold SpecFloat.bounded, canonical_mantissa. rewrite Hle, andb_true_r.
        apply Z.eqb_eq. rewrite fexp_eq.
        change (Zpos (digits2_pos 8388608)) with 24. lia.
      * split; [lia|].
        replace (e + Zpos p + 1 - e) with (Z.succ (Zpos p)) by lia.
        rewrite Z.pow_succ_r by lia.
        change (Zpos 8388608) with (2 ^ 23). rewrite Hc in Hr2.
        change (2 ^ 24) with (2 * 2 ^ 23) in Hr2.
        split; [|discriminate].
        replace (2 ^ 23 * (2 * 2 ^ Zpos p)) with (2 * 2 ^ 23 * 2 ^ Zpos p) by ring.
        exact Hr2.
    + (* it does not *)
      assert (Hmr : 2 ^ 23 <= mr < 2 ^ 24) by lia.
      destruct mr as [| mr' | mr'] eqn:Emr; [lia| |lia].
      cbn [Zdigits2].
      assert (Hdig : Zpos (digits2_pos mr') = 24)
        by (apply digits2_pos_unique; exact Hmr).
      rewrite Hdig.
      replace (fexp prec emax (24 + (e + Zpos p)) - (e + Zpos p)) with 0
        by (rewrite fexp_eq; lia).
      cbn [shr shr_record_of_loc shr_m].
      assert (Hle : (e + Zpos p <=? emax - prec) = true)
        by (apply Z.leb_le; unfold emax, prec; lia).
      rewrite Hle. exists mr', (e + Zpos p). split; [reflexivity|]. split.
      * unfold SpecFloat.bounded, canonical_mantissa. rewrite Hle, andb_true_r.
        apply Z.eqb_eq. rewrite Hdig, fexp_eq. lia.
      * split; [lia|]. replace (e + Zpos p - e) with (Zpos p) by lia.
        split; [exact Hr2|discriminate].
Qed.

(** [binary_round] of a mantissa at an exponent of the format's range: the
    result is a number, away from the exact value by at most half of the
    spacing [2^f] of the format at that magnitude, and exact when the
    mantissa needs no right shift. *)
Lemma binary_round_spec (s : bool) (m : positive) (e : Z) :
  let d := Zpos (digits2_pos m) in
  let f := fexp prec emax (d + e) in
  - 149 <= e -> d + e <= 127 ->
  exists (m' : positive) (e' : Z),
    binary_round prec emax s m e = S754_finite s m' e' /\
    SpecFloat.bounded prec emax m' e' = true /\
    - 149 <= e' /\
    2 * Z.abs (Zpos m' * 2 ^ (e' + 149) - Zpos m * 2 ^ (e + 149)) <= 2 ^ (f + 149) /\
    (f <= e -> Zpos m' * 2 ^ (e' + 149) = Zpos m * 2 ^ (e + 149)).
Proof.
  intros d f He Hd. unfold binary_round. fold d. fold f.
  assert (Hf : - 149 <= f) by (unfold f; rewrite fexp_eq; lia).
  unfold shl_align. destruct (f - e) as [| p | p] eqn:Ep.
  - destruct (@binary_round_aux_spec s m e He Hd) as (m' & e' & E & Hb & Hle & Herr & Hex).
    { fold d. fold f. lia. }
    fold d in Herr, Hex. fold f in Herr, Hex.
    exists m', e'. split; [exact E|]. split; [exact Hb|]. split; [lia|].
    replace (f - e) with 0 in Herr, Hex by lia. specialize (Hex eq_refl).
    replace (e' + 149) with ((e' - e) + (e + 149)) by lia.
    rewrite Z.pow_add_r, Z.mul_assoc, Hex by lia.
    rewrite Z.sub_diag. cbn [Z.abs Z.mul].
    split; [|reflexivity]. apply Z.pow_nonneg. lia.
  - destruct (@binary_round_aux_spec s m e He Hd) as (m' & e' & E & Hb & Hle & Herr & Hex).
    { fold d. fold f. lia. }
    fold d in Herr, Hex. fold f in Herr, Hex.
    exists m', e'. split; [exact E|]. split; [exact Hb|]. split; [lia|].
    split; [|lia].
    replace (e' + 149) with ((e' - e) + (e + 149)) by lia.
    rewrite Z.pow_add_r, Z.mul_assoc, <- Z.mul_sub_distr_r by lia.
    assert (Hp : 0 < 2 ^ (e + 149)) by (apply Z.pow_pos_nonneg; lia).
    rewrite Z.abs_mul, (Z.abs_eq (2 ^ (e + 149))) by lia.
    replace (f + 149) with ((f - e) + (e + 149)) by lia.
    rewrite (Z.pow_add_r 2 (f - e)) by lia. nia.
  - (* the mantissa is first shifted left, to the exponent [f] *)
    assert (Hd' : Zpos (digits2_pos (Pos.iter xO m p)) + f = d + e)
      by (rewrite iter_xO_digits; fold d; lia).
    destruct (@binary_round_aux_spec s (Pos.iter xO m p) f) as (m' & e' & E & Hb & Hle & Herr & Hex).
    { exact Hf. } { rewrite Hd'. exact Hd. } { rewrite Hd'. fold f. lia. }
    rewrite Hd' in Herr, Hex. fold f in Herr, Hex. rewrite Z.sub_diag in Herr, Hex.
    specialize (Hex eq_refl). rewrite iter_xO_value in Hex.
    exists m', e'. split; [exact E|]. split; [exact Hb|]. split; [lia|].
    assert (Hv : Zpos m' * 2 ^ (e' + 149) = Zpos m * 2 ^ (e + 149)).
    { replace (e' + 149) with ((e' - f) + (f + 149)) by lia.
      rewrite Z.pow_add_r, Z.mul_assoc, Hex by lia.
      replace (e + 149) with (Zpos p + (f + 149)) by lia.
      rewrite (Z.pow_add_r 2 (Zpos p)) by lia. ring. }
    rewrite Hv, Z.sub_diag. cbn [Z.abs Z.mul].
    split; [|reflexivity]. apply Z.pow_nonneg. lia.
Qed.

(** *** Numbers and their values *)

Lemma number_finite (s : bool) (m : positive) (e : Z) :
  number (S754_finite s m e) = true <-> SpecFloat.bounded prec emax m e = true.
Proof. unfold number. cbn [valid_binary is_finite]. rewrite andb_true_r. tauto. Qed.

(** The mantissa of a number has at most 24 digits, exactly 24 above the
    smallest exponent, and the exponent is in the range of the format. *)
Lemma bounded_inv (m : positive) (e : Z) :
  SpecFloat.bounded prec emax m e = true ->
  let d := Zpos (digits2_pos m) in
  - 149 <= e <= 104 /\ d <= 24 /\ (- 149 < e -> d = 24).
Proof.
  unfold SpecFloat.bounded, canonical_mantissa. intros H.
  apply andb_prop in H as [H1 H2]. apply Z.eqb_eq in H1. apply Z.leb_le in H2.
  cbv zeta. rewrite fexp_eq in H1. unfold emax, prec in H2. lia.
Qed.

Lemma pow2_le_lt (a b : Z) : 0 <= a -> 2 ^ a < 2 ^ b -> a < b.
Proof. intros Ha H. apply (Z.pow_lt_mono_r_iff 2); try lia.
  destruct (Z_lt_le_dec b 0) as [Hb|Hb]; [|assumption].
  rewrite (Z.pow_neg_r 2 b) in H by assumption.
  assert (0 < 2 ^ a) by (apply Z.pow_pos_nonneg; lia). lia.
Qed.

(** [binary_normalize] of the integer [M] at the exponent [e], when the
    magnitude is below [2^k]: the result is a number, away from the exact
    value by at most half of [2^(k - 24)], and exact when [M] has at most
    24 digits. *)
Lemma binary_normalize_spec (M e k : Z) (sz : bool) :
  - 149 <= e -> - 125 <= k <= 127 ->
  Z.abs M * 2 ^ (e + 149) < 2 ^ (k + 149) ->
  let r := binary_normalize prec emax M e sz in
  number r = true /\
  2 * Z.abs (ulps r - M * 2 ^ (e + 149)) <= 2 ^ (k - 24 + 149) /\
  (Z.abs M < 2 ^ 24 -> ulps r = M * 2 ^ (e + 149)) /\
  (0 < M -> 0 < ulps r) /\ (M < 0 -> ulps r < 0) /\
  (M = 0 -> r = S754_zero sz).
Proof.
  intros He Hk HM. cbv zeta.
  assert (Hpk : 0 < 2 ^ (k - 24 + 149)) by (apply Z.pow_pos_nonneg; lia).
  assert (Hpe : 0 < 2 ^ (e + 149)) by (apply Z.pow_pos_nonneg; lia).
  assert (Hgen : forall (s : bool) (m : positive),
            Zpos m * 2 ^ (e + 149) < 2 ^ (k + 149) ->
            let r := binary_round prec emax s m e in
            number r = true /\
            2 * Z.abs (ulps r - cond_Zopp s (Zpos m) * 2 ^ (e + 149)) <= 2 ^ (k - 24 + 149) /\
            (Zpos m < 2 ^ 24 -> ulps r = cond_Zopp s (Zpos m) * 2 ^ (e + 149)) /\
            (exists m' e', r = S754_finite s m' e')).
  { intros s m Hm. cbv zeta.
    pose proof (digits2_pos_bounds m) as [Hd1 Hd2].
    set (d := Zpos (digits2_pos m)) in *.
    assert (Hde : d + e <= k).
    { assert (H : 2 ^ (d - 1 + (e + 149)) < 2 ^ (k + 149)).
      { rewrite Z.pow_add_r by (unfold d; lia). nia. }
      apply pow2_le_lt in H; [lia | unfold d; lia]. }
    destruct (@binary_round_spec s m e He) as (m' & e' & E & Hb & He' & Herr & Hex).
    { fold d. lia. }
    fold d in Herr, Hex. rewrite E.
    split; [apply number_finite; exact Hb|].
    assert (Hv : ulps (S754_finite s m' e') - cond_Zopp s (Zpos m) * 2 ^ (e + 149)
                 = cond_Zopp s (Zpos m' * 2 ^ (e' + 149) - Zpos m * 2 ^ (e + 149))).
    { cbn [ulps]. destruct s; cbn [cond_Zopp]; ring. }
    split.
    - rewrite Hv.
      assert (Hab : forall z, Z.abs (cond_Zopp s z) = Z.abs z)
        by (intros z; destruct s; cbn [cond_Zopp]; lia).
      rewrite Hab.
      assert (Hf : 2 ^ (fexp prec emax (d + e) + 149) <= 2 ^ (k - 24 + 149)).
      { apply Z.pow_le_mono_r; [lia|]. rewrite fexp_eq. lia. }
      lia.
    - split; [|eexists _, _; reflexivity].
      intros Hsmall.
      assert (Hd24 : d <= 24).
      { assert (H : 2 ^ (d - 1) < 2 ^ 24) by lia.
        apply pow2_le_lt in H; [lia | unfold d; lia]. }
      assert (Hfe : fexp prec emax (d + e) <= e) by (rewrite fexp_eq; lia).
      specialize (Hex Hfe).
      assert (Hz : Zpos m' * 2 ^ (e' + 149) - Zpos m * 2 ^ (e + 149) = 0) by lia.
      rewrite Hz in Hv. destruct s; cbn [cond_Zopp ulps] in Hv |- *; lia. }
  destruct M as [| m | m]; cbn [binary_normalize].
  - cbn [number valid_binary is_finite andb ulps]. repeat split; lia.
  - destruct (Hgen false m) as (Hn & Herr & Hex & (m' & e' & E)); [exact HM|].
    cbv zeta in *. cbn [cond_Zopp] in *.
    split; [exact Hn|]. split; [exact Herr|]. split; [exact Hex|].
    rewrite E. cbn [ulps cond_Zopp].
    assert (0 < 2 ^ (e' + 149)).
    { rewrite E in Hn. apply number_finite in Hn. apply bounded_inv in Hn.
      apply Z.pow_pos_nonneg; lia. }
    repeat split; try lia; try discriminate; intros _; nia.
  - destruct (Hgen true m) as (Hn & Herr & Hex & (m' & e' & E)); [exact HM|].
    cbv zeta in *. cbn [cond_Zopp] in *.
    change (- Zpos m) with (Zneg m) in *.
    split; [exact Hn|]. split; [exact Herr|].
    split; [intros H; apply Hex; cbn [Z.abs] in H; exact H|].
    rewrite E. cbn [ulps cond_Zopp].
    assert (0 < 2 ^ (e' + 149)).
    { rewrite E in Hn. apply number_finite in Hn. apply bounded_inv in Hn.
      apply Z.pow_pos_nonneg; lia. }
    repeat split; try lia; try discriminate; intros _; nia.
Qed.

Lemma number_inv (x : float) :
  number x = true ->
  (exists s, x = S754_zero s) \/
  (exists s m e, x = S754_finite s m e /\ SpecFloat.bounded prec emax m e = true).
Proof.
  destruct x as [s | s | | s m e]; intros H; try discriminate H.
  - left. exists s. reflexivity.
  - right. exists s, m, e. split; [reflexivity|]. exact (proj1 (number_finite s m e) H).
Qed.

(** Aligning a mantissa to a smaller exponent multiplies it by the power
    of two between the exponents. *)
Lemma shl_align_value (m : positive) (e ez : Z) :
  ez <= e -> Zpos (fst (shl_align m e ez)) = Zpos m * 2 ^ (e - ez).
Proof.
  intros H. unfold shl_align. destruct (ez - e) as [| p | p] eqn:E; cbn [fst].
  - replace (e - ez) with 0 by lia. change (2 ^ 0) with 1. lia.
  - lia.
  - rewrite iter_xO_value. f_equal. f_equal. lia.
Qed.

(** The value of an aligned mantissa, in units of 2^-149. *)
Lemma aligned_ulps (s : bool) (m : positive) (e ez : Z) :
  - 149 <= ez <= e ->
  cond_Zopp s (Zpos (fst (shl_align m e ez))) * 2 ^ (ez + 149)
  = ulps (S754_finite s m e).
Proof.
  intros H. rewrite shl_align_value by lia. cbn [ulps].
  replace (e + 149) with ((e - ez) + (ez + 149)) by lia.
  rewrite (Z.pow_add_r 2 (e - ez) (ez + 149)) by lia.
  destruct s; cbn [cond_Zopp]; ring.
Qed.

(** Every number is below 2^128 in magnitude. *)
Lemma ulps_bound (x : float) :
  number x = true -> Z.abs (ulps x) < 2 ^ (128 + 149).
Proof.
  intros H. apply number_inv in H as [(s & ->) | (s & m & e & -> & Hb)].
  - cbn. lia.
  - apply bounded_inv in Hb as (He & Hd & _).
    pose proof (digits2_pos_bounds m) as [_ Hm].
    cbn [ulps].
    assert (Hab : forall z, Z.abs (cond_Zopp s z) = Z.abs z)
      by (intros z; destruct s; cbn [cond_Zopp]; lia).
    rewrite Hab.
    assert (Hp : 0 < 2 ^ (e + 149)) by (apply Z.pow_pos_nonneg; lia).
    rewrite Z.abs_eq by nia.
    assert (H24 : 2 ^ Zpos (digits2_pos m) <= 2 ^ 24) by (apply Z.pow_le_mono_r; lia).
    assert (H253 : 2 ^ (e + 149) <= 2 ^ 253) by (apply Z.pow_le_mono_r; lia).
    change (2 ^ (128 + 149)) with (2 ^ 24 * 2 ^ 253). nia.
Qed.

(** The float sum of two numbers whose exact sum is below [2^k] in
    magnitude is a number, away from the exact sum by at most half of
    [2^(k - 24)], and of the sign of the exact sum. *)
Lemma SFadd_spec (x y : float) (k : Z) :
  number x = true -> number y = true -> - 125 <= k <= 127 ->
  Z.abs (ulps x + ulps y) < 2 ^ (k + 149) ->
  let r := SFadd prec emax x y in
  number r = true /\
  2 * Z.abs (ulps r - (ulps x + ulps y)) <= 2 ^ (k - 24 + 149) /\
  (0 < ulps x + ulps y -> 0 < ulps r) /\ (ulps x + ulps y < 0 -> ulps r < 0).
Proof.
  intros Hx Hy Hk Hb. cbv zeta.
  assert (Hpk : 0 < 2 ^ (k - 24 + 149)) by (apply Z.pow_pos_nonneg; lia).
  pose proof Hx as Hx'. pose proof Hy as Hy'.
  apply number_inv in Hx' as [(sx & ->) | (sx & mx & ex & -> & Bx)];
    apply number_inv in Hy' as [(sy & ->) | (sy & my & ey & -> & By)].
  - destruct sx, sy; cbn; repeat split; lia.
  - cbn [SFadd]. split; [exact Hy|].
    replace (ulps (S754_zero sx)) with 0 by reflexivity. repeat split; lia.
  - cbn [SFadd]. split; [exact Hx|].
    replace (ulps (S754_zero sy)) with 0 by reflexivity. repeat split; lia.
  - cbn [SFadd].
    pose proof (bounded_inv _ _ Bx) as (Hex & _). pose proof (bounded_inv _ _ By) as (Hey & _).
    set (ez := Z.min ex ey).
    set (M := cond_Zopp sx (Zpos (fst (shl_align mx ex ez)))
              + cond_Zopp sy (Zpos (fst (shl_align my ey ez)))).
    assert (HM : M * 2 ^ (ez + 149)
                 = ulps (S754_finite sx mx ex) + ulps (S754_finite sy my ey)).
    { unfold M. rewrite Z.mul_add_distr_r, !aligned_ulps by (unfold ez; lia).
      reflexivity. }
    assert (Hp : 0 < 2 ^ (ez + 149)) by (apply Z.pow_pos_nonneg; unfold ez; lia).
    destruct (@binary_normalize_spec M ez k false) as (Hn & Herr & _ & Hpos & Hneg & _).
    { unfold ez; lia. } { exact Hk. }
    { rewrite <- HM, Z.abs_mul, (Z.abs_eq (2 ^ (ez + 149))) in Hb by lia. exact Hb. }
    rewrite HM in Herr. split; [exact Hn|]. split; [exact Herr|].
    rewrite <- HM. split; intros H; [apply Hpos | apply Hneg]; nia.
Qed.

(** A float sum is -0 only when both terms are. *)
Lemma SFadd_neg_zero (x y : float) (k : Z) :
  number x = true -> number y = true -> - 125 <= k <= 127 ->
  Z.abs (ulps x + ulps y) < 2 ^ (k + 149) ->
  SFadd prec emax x y = S754_zero true -> x = S754_zero true /\ y = S754_zero true.
Proof.
  intros Hx Hy Hk Hb.
  apply number_inv in Hx as [(sx & ->) | (sx & mx & ex & -> & Bx)];
    apply number_inv in Hy as [(sy & ->) | (sy & my & ey & -> & By)].
  - destruct sx, sy; cbn [SFadd]; intros H; try discriminate H. auto.
  - cbn [SFadd]. discriminate.
  - cbn [SFadd]. discriminate.
  - cbn [SFadd].
    pose proof (bounded_inv _ _ Bx) as (Hex & _). pose proof (bounded_inv _ _ By) as (Hey & _).
    set (ez := Z.min ex ey).
    set (M := cond_Zopp sx (Zpos (fst (shl_align mx ex ez)))
              + cond_Zopp sy (Zpos (fst (shl_align my ey ez)))).
    assert (HM : M * 2 ^ (ez + 149)
                 = ulps (S754_finite sx mx ex) + ulps (S754_finite sy my ey)).
    { unfold M. rewrite Z.mul_add_distr_r, !aligned_ulps by (unfold ez; lia).
      reflexivity. }
    assert (Hp : 0 < 2 ^ (ez + 149)) by (apply Z.pow_pos_nonneg; unfold ez; lia).
    destruct (@binary_normalize_spec M ez k false) as (_ & _ & _ & Hpos & Hneg & Hzero).
    { unfold ez; lia. } { exact Hk. }
    { rewrite <- HM, Z.abs_mul, (Z.abs_eq (2 ^ (ez + 149))) in Hb by lia. exact Hb. }
    intros Hz. exfalso. rewrite Hz in Hpos, Hneg, Hzero. cbn [ulps] in Hpos, Hneg.
    destruct (Z.lt_trichotomy M 0) as [H | [H | H]].
    + specialize (Hneg H). lia.
    + specialize (Hzero H). discriminate Hzero.
    + specialize (Hpos H). lia.
Qed.

Lemma ulps_opp (x : float) : ulps (SFopp x) = - ulps x.
Proof. destruct x as [s | s | | [|] m e]; cbn; lia. Qed.

Lemma number_opp (x : float) : number (SFopp x) = number x.
Proof. destruct x as [s | s | | s m e]; reflexivity. Qed.

Lemma ulps_abs (x : float) : ulps (SFabs x) = Z.abs (ulps x).
Proof.
  destruct x as [s | s | | [|] m e]; cbn [SFabs ulps cond_Zopp]; try reflexivity.
  - assert (0 < 2 ^ (e + 149) \/ 2 ^ (e + 149) = 0).
    { destruct (Z_lt_le_dec (e + 149) 0); [right; apply Z.pow_neg_r; lia|].
      left. apply Z.pow_pos_nonneg; lia. }
    nia.
  - assert (0 <= 2 ^ (e + 149)) by (apply Z.pow_nonneg; lia). nia.
Qed.

Lemma number_abs (x : float) : number (SFabs x) = number x.
Proof. destruct x as [s | s | | s m e]; reflexivity. Qed.

Lemma SFsub_add_opp (x y : float) :
  number x = true -> number y = true ->
  ulps (SFsub prec emax x y) = ulps (SFadd prec emax x (SFopp y)) /\
  number (SFsub prec emax x y) = number (SFadd prec emax x (SFopp y)).
Proof.
  intros Hx Hy.
  apply number_inv in Hx as [(sx & ->) | (sx & mx & ex & -> & Bx)];
    apply number_inv in Hy as [(sy & ->) | (sy & my & ey & -> & By)].
  - destruct sx, sy; split; reflexivity.
  - split; reflexivity.
  - split; reflexivity.
  - cbn [SFsub SFadd SFopp].
    set (a := cond_Zopp sx _). set (b := Zpos (fst (shl_align my ey (Z.min ex ey)))).
    replace (a + cond_Zopp (negb sy) b) with (a - cond_Zopp sy b)
      by (destruct sy; cbn [negb cond_Zopp]; lia).
    split; reflexivity.
Qed.

(** The same for the float difference. *)
Lemma SFsub_spec (x y : float) (k : Z) :
  number x = true -> number y = true -> - 125 <= k <= 127 ->
  Z.abs (ulps x - ulps y) < 2 ^ (k + 149) ->
  let r := SFsub prec emax x y in
  number r = true /\
  2 * Z.abs (ulps r - (ulps x - ulps y)) <= 2 ^ (k - 24 + 149) /\
  (0 < ulps x - ulps y -> 0 < ulps r) /\ (ulps x - ulps y < 0 -> ulps r < 0).
Proof.
  intros Hx Hy Hk Hb. cbv zeta.
  destruct (SFsub_add_opp x y Hx Hy) as [E1 E2]. rewrite E1, E2.
  assert (Hy' : number (SFopp y) = true) by (rewrite number_opp; exact Hy).
  destruct (@SFadd_spec x (SFopp y) k Hx Hy' Hk) as (Hn & Herr & Hpos & Hneg).
  { rewrite ulps_opp, Z.add_opp_r. exact Hb. }
  rewrite ulps_opp, Z.add_opp_r in Herr, Hpos, Hneg. auto.
Qed.

(** *** The order of floats is the order of the values *)

Lemma bounded_exponent_order (m1 m2 : positive) (e1 e2 : Z) :
  SpecFloat.bounded prec emax m1 e1 = true ->
  SpecFloat.bounded prec emax m2 e2 = true ->
  e1 < e2 -> Zpos m1 * 2 ^ (e1 + 149) < Zpos m2 * 2 ^ (e2 + 149).
Proof.
  intros B1 B2 H.
  apply bounded_inv in B1 as (He1 & Hd1 & _). apply bounded_inv in B2 as (He2 & _ & Hd2).
  pose proof (digits2_pos_bounds m1) as [_ Hm1].
  pose proof (digits2_pos_bounds m2) as [Hm2 _].
  rewrite Hd2 in Hm2 by lia. change (2 ^ (24 - 1)) with (2 ^ 23) in Hm2.
  assert (H24 : 2 ^ Zpos (digits2_pos m1) <= 2 ^ 24) by (apply Z.pow_le_mono_r; lia).
  replace (e2 + 149) with ((e2 - e1 - 1) + 1 + (e1 + 149)) by lia.
  rewrite (Z.pow_add_r 2 (e2 - e1 - 1 + 1) (e1 + 149)),
    (Z.pow_add_r 2 (e2 - e1 - 1) 1) by lia.
  change (2 ^ 1) with 2.
  assert (Hp : 0 < 2 ^ (e1 + 149)) by (apply Z.pow_pos_nonneg; lia).
  assert (Hq : 0 < 2 ^ (e2 - e1 - 1)) by (apply Z.pow_pos_nonneg; lia).
  change (2 ^ 24) with (2 * 2 ^ 23) in H24.
  assert (Zpos m1 * 2 ^ (e1 + 149) < 2 * 2 ^ 23 * 2 ^ (e1 + 149)) by nia.
  assert (2 * 2 ^ 23 * 2 ^ (e1 + 149) <= Zpos m2 * (1 * 2 * 2 ^ (e1 + 149))) by nia.
  assert (Zpos m2 * (1 * 2 * 2 ^ (e1 + 149))
          <= Zpos m2 * (2 ^ (e2 - e1 - 1) * 2 * 2 ^ (e1 + 149))) by nia.
  lia.
Qed.

Lemma bounded_compare (m1 m2 : positive) (e1 e2 : Z) :
  SpecFloat.bounded prec emax m1 e1 = true ->
  SpecFloat.bounded prec emax m2 e2 = true ->
  match e1 ?= e2 with
  | Lt => Lt
  | Gt => Gt
  | Eq => Pos.compare_cont Eq m1 m2
  end = (Zpos m1 * 2 ^ (e1 + 149) ?= Zpos m2 * 2 ^ (e2 + 149)).
Proof.
  intros B1 B2. symmetry. destruct (Z.compare_spec e1 e2) as [E | L | G].
  - subst e2. pose proof (bounded_inv _ _ B1) as (He & _).
    assert (Hp : 0 < 2 ^ (e1 + 149)) by (apply Z.pow_pos_nonneg; lia).
    change (Pos.compare_cont Eq m1 m2) with (Zpos m1 ?= Zpos m2).
    destruct (Z.compare_spec (Zpos m1) (Zpos m2)) as [E | L | G].
    + rewrite E. apply Z.compare_refl.
    + apply Z.compare_lt_iff. nia.
    + apply Z.compare_gt_iff. nia.
  - apply Z.compare_lt_iff. apply bounded_exponent_order; assumption.
  - apply Z.compare_gt_iff. apply bounded_exponent_order; assumption.
Qed.

(** On numbers, the comparison of floats is the comparison of values. *)
Lemma SFcompare_spec (x y : float) :
  number x = true -> number y = true ->
  SFcompare x y = Some (ulps x ?= ulps y).
Proof.
  intros Hx Hy.
  apply number_inv in Hx as [(sx & ->) | (sx & mx & ex & -> & Bx)];
    apply number_inv in Hy as [(sy & ->) | (sy & my & ey & -> & By)].
  - reflexivity.
  - pose proof (bounded_inv _ _ By) as (He & _).
    assert (Hp : 0 < 2 ^ (ey + 149)) by (apply Z.pow_pos_nonneg; lia).
    cbn [SFcompare ulps]. f_equal. symmetry.
    destruct sy; cbn [cond_Zopp];
      [apply Z.compare_gt_iff | apply Z.compare_lt_iff]; nia.
  - pose proof (bounded_inv _ _ Bx) as (He & _).
    assert (Hp : 0 < 2 ^ (ex + 149)) by (apply Z.pow_pos_nonneg; lia).
    cbn [SFcompare ulps]. f_equal. symmetry.
    destruct sx; cbn [cond_Zopp];
      [apply Z.compare_lt_iff | apply Z.compare_gt_iff]; nia.
  - pose proof (bounded_inv _ _ Bx) as (Hex & _).
    pose proof (bounded_inv _ _ By) as (Hey & _).
    assert (Hpx : 0 < 2 ^ (ex + 149)) by (apply Z.pow_pos_nonneg; lia).
    assert (Hpy : 0 < 2 ^ (ey + 149)) by (apply Z.pow_pos_nonneg; lia).
    cbn [SFcompare ulps]. f_equal.
    destruct sx, sy; cbn [cond_Zopp].
    + rewrite Z.compare_opp.
      rewrite <- (@bounded_compare my mx ey ex By Bx).
      rewrite (Z.compare_antisym ey ex).
      destruct (ey ?= ex); cbn [CompOpp]; try reflexivity.
      change (Pos.compare_cont Eq mx my) with (Pos.compare mx my).
      change (Pos.compare_cont Eq my mx) with (Pos.compare my mx).
      pose proof (Pos.compare_antisym mx my) as Ha.
      destruct (mx ?= my)%positive, (my ?= mx)%positive; cbn [CompOpp] in *;
        congruence.
    + symmetry. apply Z.compare_lt_iff. nia.
    + symmetry. apply Z.compare_gt_iff. nia.
    + apply bounded_compare; assumption.
Qed.

Lemma SFltb_spec (x y : float) :
  number x = true -> number y = true ->
  SFltb x y = (ulps x <? ulps y).
Proof.
  intros Hx Hy. unfold SFltb, Z.ltb. rewrite (@SFcompare_spec x y Hx Hy).
  destruct (ulps x ?= ulps y); reflexivity.
Qed.

(** *** [fmod] and [normalize_angle] *)

Lemma of_Z_360 : b32_of_Z 360 = S754_finite false 11796480 (- 15).
Proof. reflexivity. Qed.

Lemma number_of_Z_360 : number (b32_of_Z 360) = true /\ ulps (b32_of_Z 360) = 360 * degree.
Proof. split; vm_compute; reflexivity. Qed.

Lemma number_of_Z_180 : number (b32_of_Z 180) = true /\ ulps (b32_of_Z 180) = 180 * degree.
Proof. split; vm_compute; reflexivity. Qed.

Lemma number_of_Z_0 : number (b32_of_Z 0) = true /\ ulps (b32_of_Z 0) = 0.
Proof. split; vm_compute; reflexivity. Qed.

(** [fmod x 360] is exact: the remainder of the division that truncates. *)
Lemma fmod_360_spec (x : float) :
  number x = true ->
  let t := b32_fmod x (b32_of_Z 360) in
  number t = true /\ ulps t = Z.rem (ulps x) (360 * degree) /\
  (t = S754_zero true -> x = S754_zero true \/ ulps x < 0).
Proof.
  intros Hx. cbv zeta. rewrite of_Z_360.
  apply number_inv in Hx as [(s & ->) | (s & m & e & -> & B)].
  - split; [reflexivity|]. split; [reflexivity|]. cbn [b32_fmod]. auto.
  - cbn [b32_fmod].
    pose proof (bounded_inv _ _ B) as (He & Hd & _).
    pose proof (digits2_pos_bounds m) as [_ Hm].
    assert (H24 : 2 ^ Zpos (digits2_pos m) <= 2 ^ 24) by (apply Z.pow_le_mono_r; lia).
    set (ez := Z.min e (- 15)).
    set (U := Zpos (fst (shl_align m e ez))).
    set (V := Zpos (fst (shl_align 11796480 (- 15) ez))).
    assert (Hez : - 149 <= ez) by (unfold ez; lia).
    assert (Hp : 0 < 2 ^ (ez + 149)) by (apply Z.pow_pos_nonneg; lia).
    assert (HU : U * 2 ^ (ez + 149) = Zpos m * 2 ^ (e + 149)).
    { pose proof (@aligned_ulps false m e ez) as H. cbn [cond_Zopp ulps] in H.
      apply H. unfold ez. lia. }
    assert (HV : V * 2 ^ (ez + 149) = 360 * degree).
    { pose proof (@aligned_ulps false 11796480 (- 15) ez) as H.
      cbn [cond_Zopp ulps] in H. unfold V. rewrite H by (unfold ez; lia).
      reflexivity. }
    assert (HUV : 0 <= U mod V < V) by (apply Z.mod_pos_bound; unfold V; lia).
    assert (Hsmall : U mod V < 2 ^ 24).
    { destruct (Z_le_gt_dec e (- 15)) as [Hle | Hgt].
      - assert (HUm : U = Zpos m).
        { unfold U. rewrite shl_align_value by (unfold ez; lia).
          replace (e - ez) with 0 by (unfold ez; lia). change (2 ^ 0) with 1. lia. }
        assert (U mod V <= U) by (apply Z.mod_le; unfold U, V; lia). lia.
      - assert (HVm : V = 11796480).
        { unfold V. rewrite shl_align_value by (unfold ez; lia).
          replace (- 15 - ez) with 0 by (unfold ez; lia). reflexivity. }
        change (2 ^ 24) with 16777216. lia. }
    assert (Hab : forall z, Z.abs (cond_Zopp s z) = Z.abs z)
      by (intros z; destruct s; cbn [cond_Zopp]; lia).
    destruct (@binary_normalize_spec (cond_Zopp s (U mod V)) ez 9 s)
      as (Hn & _ & Hex & Hpos & _ & Hzero).
    { exact Hez. } { lia. }
    { rewrite Hab, Z.abs_eq by lia.
      assert (U mod V * 2 ^ (ez + 149) < V * 2 ^ (ez + 149)) by nia.
      rewrite HV in *. unfold degree in *.
      change (2 ^ (9 + 149)) with (512 * 2 ^ 149).
      assert (0 < 2 ^ 149) by (apply Z.pow_pos_nonneg; lia). lia. }
    split; [exact Hn|]. split; cycle 1.
    { intros Hz. right. destruct s; cbn [ulps cond_Zopp] in *.
      - assert (0 < 2 ^ (e + 149)) by (apply Z.pow_pos_nonneg; lia). nia.
      - exfalso. destruct (Z.eq_dec (U mod V) 0) as [E0 | Hnz].
        + rewrite (Hzero E0) in Hz. discriminate Hz.
        + assert (Hp0 : 0 < U mod V) by lia. specialize (Hpos Hp0).
          rewrite Hz in Hpos. cbn [ulps] in Hpos. lia. }
    rewrite Hex by (rewrite Hab, Z.abs_eq by lia; exact Hsmall).
    cbn [ulps]. rewrite <- HU, <- HV.
    assert (HUp : 0 <= U * 2 ^ (ez + 149)) by (unfold U; nia).
    assert (HVp : 0 < V * 2 ^ (ez + 149)) by (unfold V; nia).
    assert (Hmod : (U * 2 ^ (ez + 149)) mod (V * 2 ^ (ez + 149))
                   = U mod V * 2 ^ (ez + 149))
      by (apply Z.mul_mod_distr_r; unfold V; lia).
    destruct s; cbn [cond_Zopp].
    + rewrite Z.rem_opp_l by lia. rewrite Z.rem_mod_nonneg by lia.
      rewrite Hmod. ring.
    + rewrite Z.rem_mod_nonneg by lia. rewrite Hmod. reflexivity.
Qed.

(** A number of magnitude at least [2^j] is a multiple of [2^(j - 23)]. *)
Lemma number_multiple (x : float) (j : Z) :
  number x = true -> - 126 <= j -> 2 ^ (j + 149) <= Z.abs (ulps x) ->
  exists c : Z, ulps x = c * 2 ^ (j - 23 + 149).
Proof.
  intros Hx Hj H. apply number_inv in Hx as [(s & ->) | (s & m & e & -> & B)].
  - cbn [ulps Z.abs] in H.
    assert (0 < 2 ^ (j + 149)) by (apply Z.pow_pos_nonneg; lia). lia.
  - pose proof (bounded_inv _ _ B) as (He & Hd & _).
    pose proof (digits2_pos_bounds m) as [_ Hm].
    assert (H24 : 2 ^ Zpos (digits2_pos m) <= 2 ^ 24) by (apply Z.pow_le_mono_r; lia).
    assert (Hab : forall z, Z.abs (cond_Zopp s z) = Z.abs z)
      by (intros z; destruct s; cbn [cond_Zopp]; lia).
    cbn [ulps] in *. rewrite Hab in H.
    assert (Hp : 0 < 2 ^ (e + 149)) by (apply Z.pow_pos_nonneg; lia).
    rewrite Z.abs_eq in H by nia.
    assert (Hlt : 2 ^ (j + 149) < 2 ^ (24 + (e + 149))).
    { rewrite (Z.pow_add_r 2 24) by lia. nia. }
    apply pow2_le_lt in Hlt; [|lia].
    exists (cond_Zopp s (Zpos m * 2 ^ (e - (j - 23)))).
    replace (e + 149) with ((e - (j - 23)) + (j - 23 + 149)) at 1 by lia.
    rewrite (Z.pow_add_r 2 (e - (j - 23))) by lia.
    destruct s; cbn [cond_Zopp]; ring.
Qed.

Lemma normalize_angle_unfold (x : float) :
  normalize_angle x
  = let t := b32_fmod x (b32_of_Z 360) in
    if SFltb t (b32_of_Z 0) then SFadd prec emax t (b32_of_Z 360) else t.
Proof. reflexivity. Qed.

(** [normalize_angle] of a number is a number of [0, 360] (360 included)
    that differs from it by a multiple of 360 and a rounding error of at
    most 2^-16. *)
Lemma normalize_angle_spec (x : float) :
  number x = true ->
  let n := normalize_angle x in
  number n = true /\ 0 <= ulps n <= 360 * degree /\
  exists j err : Z,
    ulps n = ulps x + 360 * degree * j + err /\ 2 * Z.abs err <= 2 ^ 134.
Proof.
  intros Hx. cbv zeta. rewrite normalize_angle_unfold. cbv zeta.
  destruct (@fmod_360_spec x Hx) as (Ht & Et & _). cbv zeta in Ht, Et.
  set (t := b32_fmod x (b32_of_Z 360)) in *.
  destruct number_of_Z_360 as (H360 & E360). destruct number_of_Z_0 as (H0 & E0).
  assert (Hdeg : 0 < degree) by (unfold degree; apply Z.pow_pos_nonneg; lia).
  assert (Hq : ulps x = 360 * degree * (ulps x ÷ (360 * degree)) + ulps t).
  { rewrite Et. apply Z.quot_rem'. }
  assert (Hrb : Z.abs (ulps t) < 360 * degree).
  { rewrite Et. pose proof (Z.rem_bound_abs (ulps x) (360 * degree)) as H.
    rewrite (Z.abs_eq (360 * degree)) in H by lia. apply H. lia. }
  rewrite (@SFltb_spec t (b32_of_Z 0) Ht H0), E0.
  destruct (Z.ltb_spec (ulps t) 0) as [Hneg | Hpos].
  - destruct (@SFadd_spec t (b32_of_Z 360) 9 Ht H360) as (Hn & Herr & Hp & _).
    { lia. }
    { rewrite E360. unfold degree in *. change (2 ^ (9 + 149)) with (512 * 2 ^ 149). lia. }
    rewrite E360 in Herr, Hp. change (2 ^ (9 - 24 + 149)) with (2 ^ 134) in Herr.
    set (r := SFadd prec emax t (b32_of_Z 360)) in *.
    split; [exact Hn|]. split.
    + split; [lia|].
      destruct (Z_lt_le_dec (ulps r) (2 ^ (8 + 149))) as [Hs | Hl].
      * unfold degree in *. change (2 ^ (8 + 149)) with (256 * 2 ^ 149) in Hs. lia.
      * destruct (@number_multiple r 8 Hn) as (c & Ec); [lia | lia |].
        change (2 ^ (8 - 23 + 149)) with (2 ^ 134) in Ec.
        unfold degree in *. change (2 ^ 149) with (32768 * 2 ^ 134) in *.
        change (2 ^ 134) with (2 * 2 ^ 133) in *.
        assert (Hu : 0 < 2 ^ 133) by (apply Z.pow_pos_nonneg; lia).
        set (u := 2 ^ 133) in *. nia.
    + exists (1 - ulps x ÷ (360 * degree)), (ulps r - (ulps t + 360 * degree)).
      split; [|exact Herr]. lia.
  - split; [exact Ht|]. split; [lia|].
    exists (- (ulps x ÷ (360 * degree))), 0. split; [lia|].
    cbn [Z.abs Z.mul]. apply Z.pow_nonneg. lia.
Qed.

(** *** [steering_nudge] *)

Lemma wrapped_difference_b32 (a b : float) :
  wrapped_difference a b
  = let difference := SFsub prec emax b a in
    if SFltb (b32_of_Z 180) difference then SFsub prec emax difference (b32_of_Z 360)
    else if SFltb difference (SFopp (b32_of_Z 180))
         then SFadd prec emax difference (b32_of_Z 360)
         else difference.
Proof. reflexivity. Qed.

(** The wrapped difference of two numbers of [0, 360] is a number of
    magnitude at most 180 (and a rounding error), away from their
    difference by a multiple of 360 and by a rounding error. *)
Lemma wrapped_difference_spec (a b : float) :
  number a = true -> number b = true ->
  0 <= ulps a <= 360 * degree -> 0 <= ulps b <= 360 * degree ->
  let d := wrapped_difference a b in
  number d = true /\ Z.abs (ulps d) <= 180 * degree + 2 ^ 133 /\
  exists j err : Z,
    ulps d = ulps b - ulps a + 360 * degree * j + err /\
    2 * Z.abs err <= 3 * 2 ^ 133 /\
    (j = 0 \/ (j = - 1 /\ 0 < ulps b - ulps a) \/ (j = 1 /\ ulps b - ulps a < 0)).
Proof.
  intros Ha Hb Ra Rb. cbv zeta. rewrite wrapped_difference_b32. cbv zeta.
  destruct number_of_Z_360 as (H360 & E360).
  destruct number_of_Z_180 as (H180 & E180).
  assert (H180' : number (SFopp (b32_of_Z 180)) = true)
    by (rewrite number_opp; exact H180).
  assert (Hpow : 2 ^ 149 = 65536 * 2 ^ 133) by reflexivity.
  assert (Hu : 0 < 2 ^ 133) by (apply Z.pow_pos_nonneg; lia).
  destruct (@SFsub_spec b a 9 Hb Ha) as (Hn & Herr & Hp & Hm).
  { lia. }
  { unfold degree in *. change (2 ^ (9 + 149)) with (512 * 2 ^ 149). lia. }
  change (2 ^ (9 - 24 + 149)) with (2 * 2 ^ 133) in Herr.
  set (diff := SFsub prec emax b a) in *.
  rewrite (@SFltb_spec (b32_of_Z 180) diff H180 Hn), E180.
  rewrite (@SFltb_spec diff (SFopp (b32_of_Z 180)) Hn H180'), ulps_opp, E180.
  destruct (Z.ltb_spec (180 * degree) (ulps diff)) as [Hhi | Hnhi].
  - destruct (@SFsub_spec diff (b32_of_Z 360) 8 Hn H360) as (Hn' & Herr' & _).
    { lia. }
    { rewrite E360. unfold degree in *. change (2 ^ (8 + 149)) with (256 * 2 ^ 149).
      rewrite Hpow in *. lia. }
    rewrite E360 in Herr'. change (2 ^ (8 - 24 + 149)) with (2 ^ 133) in Herr'.
    set (d := SFsub prec emax diff (b32_of_Z 360)) in *.
    split; [exact Hn'|]. unfold degree in *. rewrite Hpow in *.
    set (u := 2 ^ 133) in *. split; [lia|].
    exists (- 1), (ulps d - (ulps b - ulps a - 360 * (65536 * u))).
    split; [lia|]. split; [lia|]. right. left. lia.
  - destruct (Z.ltb_spec (ulps diff) (- (180 * degree))) as [Hlo | Hnlo].
    + destruct (@SFadd_spec diff (b32_of_Z 360) 8 Hn H360) as (Hn' & Herr' & _).
      { lia. }
      { rewrite E360. unfold degree in *. change (2 ^ (8 + 149)) with (256 * 2 ^ 149).
        rewrite Hpow in *. lia. }
      rewrite E360 in Herr'. change (2 ^ (8 - 24 + 149)) with (2 ^ 133) in Herr'.
      set (d := SFadd prec emax diff (b32_of_Z 360)) in *.
      split; [exact Hn'|]. unfold degree in *. rewrite Hpow in *.
      set (u := 2 ^ 133) in *. split; [lia|].
      exists 1, (ulps d - (ulps b - ulps a + 360 * (65536 * u))).
      split; [lia|]. split; [lia|]. right. right. lia.
    + split; [exact Hn|]. split; [lia|].
      exists 0, (ulps diff - (ulps b - ulps a)).
      split; [lia|]. split; [lia|]. left. reflexivity.
Qed.

Lemma steering_nudge_b32 (from to max_step : float) :
  steering_nudge from to max_step
  = let n_from := normalize_angle from in
    let n_to := normalize_angle to in
    let difference := wrapped_difference n_from n_to in
    let adjustment :=
      if SFltb (SFabs difference) max_step then SFabs difference else max_step in
    let newAngle :=
      SFadd prec emax n_from
        (if SFltb (b32_of_Z 0) difference then adjustment else SFopp adjustment) in
    normalize_angle newAngle.
Proof. reflexivity. Qed.

(** The clamp and the step, on values: the step has the sign of the
    difference and a magnitude of at most the budget and at most the
    magnitude of the difference. *)
Lemma signed_step_spec (d max_step : float) :
  number d = true -> number max_step = true -> 0 <= ulps max_step ->
  let adjustment := if SFltb (SFabs d) max_step then SFabs d else max_step in
  let step := if SFltb (b32_of_Z 0) d then adjustment else SFopp adjustment in
  number step = true /\
  Z.abs (ulps step) = Z.min (Z.abs (ulps d)) (ulps max_step) /\
  0 <= ulps step * ulps d.
Proof.
  intros Hd Hm H0. cbv zeta.
  destruct number_of_Z_0 as (Hz & Ez).
  assert (Hd' : number (SFabs d) = true) by (rewrite number_abs; exact Hd).
  rewrite (@SFltb_spec (SFabs d) max_step Hd' Hm), ulps_abs.
  rewrite (@SFltb_spec (b32_of_Z 0) d Hz Hd), Ez.
  destruct (Z.ltb_spec (Z.abs (ulps d)) (ulps max_step)) as [Hlt | Hge];
    destruct (Z.ltb_spec 0 (ulps d)) as [Hpos | Hneg];
    rewrite ?number_opp, ?ulps_opp, ?ulps_abs, ?number_abs;
    (split; [assumption|]); (split; [lia|]); nia.
Qed.

(** The shorter arc is not longer than any other way round. *)
Lemma arc_ulps_le (x y k : Z) :
  arc_ulps x y <= Z.abs (x - y - 360 * degree * k).
Proof.
  unfold arc_ulps.
  assert (Hdeg : 0 < 360 * degree)
    by (unfold degree; assert (0 < 2 ^ 149) by (apply Z.pow_pos_nonneg; lia); lia).
  set (P := 360 * degree) in *.
  destruct (Z.eq_dec k 0) as [-> | Hk]; [lia|].
  destruct (Z_lt_le_dec k 0) as [Hneg | Hpos].
  - assert (P * k <= - P) by nia. lia.
  - assert (P <= P * k) by nia. lia.
Qed.

(** The magnitude of the wrapped difference is the shorter arc between
    the two headings, up to the rounding errors. *)
Lemma wrapped_arc_low (A B d j err : Z) :
  0 <= A <= 360 * degree -> 0 <= B <= 360 * degree ->
  Z.abs d <= 180 * degree + 2 ^ 133 ->
  d = B - A + 360 * degree * j + err ->
  2 * Z.abs err <= 3 * 2 ^ 133 ->
  j = 0 \/ (j = - 1 /\ 0 < B - A) \/ (j = 1 /\ B - A < 0) ->
  Z.abs d <= arc_ulps A B + 7 * 2 ^ 133.
Proof.
  unfold arc_ulps, degree. change (2 ^ 149) with (65536 * 2 ^ 133).
  assert (Hu : 0 < 2 ^ 133) by (apply Z.pow_pos_nonneg; lia).
  generalize dependent (2 ^ 133). intros u Hu RA RB Bd Ed Herr Hj.
  subst d. destruct Hj as [-> | [[-> Hj] | [-> Hj]]]; lia.
Qed.

(** The bounds of [steering_nudge] on values, in units of 2^-149. *)
Lemma steering_nudge_ulps (from to max_step : float) :
  number from = true -> number to = true -> number max_step = true ->
  0 <= ulps max_step ->
  let n_from := normalize_angle from in
  let n_to := normalize_angle to in
  let d := wrapped_difference n_from n_to in
  let r := steering_nudge from to max_step in
  (number n_from = true /\ number n_to = true /\ number d = true /\ number r = true) /\
  (0 <= ulps n_from <= 360 * degree /\ 0 <= ulps n_to <= 360 * degree /\
   0 <= ulps r <= 360 * degree) /\
  arc_ulps (ulps r) (ulps n_from) <= ulps max_step + 2 ^ 135 /\
  arc_ulps (ulps r) (ulps n_to) <= arc_ulps (ulps n_from) (ulps n_to) + 2 ^ 137 /\
  exists (step : float) (k : Z),
    number step = true /\
    2 * Z.abs (ulps d - (ulps n_to - ulps n_from + 360 * degree * k)) <= 3 * 2 ^ 133 /\
    Z.abs (ulps d) <= 180 * degree + 2 ^ 133 /\
    0 <= ulps step * ulps d /\
    Z.abs (ulps step) = Z.min (Z.abs (ulps d)) (ulps max_step) /\
    r = normalize_angle (SFadd prec emax n_from step).
Proof.
  intros Hf Ht Hm H0. cbv zeta. rewrite steering_nudge_b32. cbv zeta.
  destruct (@normalize_angle_spec from Hf) as (Ha & Ra & _).
  destruct (@normalize_angle_spec to Ht) as (Hb & Rb & _).
  cbv zeta in Ha, Ra, Hb, Rb.
  set (a := normalize_angle from) in *. set (b := normalize_angle to) in *.
  destruct (@wrapped_difference_spec a b Ha Hb Ra Rb)
    as (Hd & Bd & j & err & Ed & Herr & Hj).
  cbv zeta in Hd, Bd, Ed. set (d := wrapped_difference a b) in *.
  destruct (@signed_step_spec d max_step Hd Hm H0) as (Hs & Bs & Sg).
  cbv zeta in Hs, Bs, Sg.
  set (step := if SFltb (b32_of_Z 0) d then _ else _) in *.
  assert (Hpow : 2 ^ 149 = 65536 * 2 ^ 133) by reflexivity.
  assert (Hu : 0 < 2 ^ 133) by (apply Z.pow_pos_nonneg; lia).
  destruct (@SFadd_spec a step 10 Ha Hs) as (Hn & Herr1 & _).
  { lia. }
  { unfold degree in *. change (2 ^ (10 + 149)) with (1024 * 2 ^ 149).
    rewrite Hpow in *. lia. }
  change (2 ^ (10 - 24 + 149)) with (4 * 2 ^ 133) in Herr1.
  set (new := SFadd prec emax a step) in *.
  destruct (@normalize_angle_spec new Hn) as (Hr & Rr & j2 & err2 & Er & Herr2).
  cbv zeta in Hr, Rr, Er. set (r := normalize_angle new) in *.
  change (2 ^ 134) with (2 * 2 ^ 133) in Herr2.
  split; [repeat split; assumption|]. split; [repeat split; lia|].
  assert (Hsd : Z.abs (ulps step - ulps d) <= Z.abs (ulps d)) by nia.
  pose proof (arc_ulps_le (ulps r) (ulps a) j2) as Arc1.
  pose proof (arc_ulps_le (ulps r) (ulps b) (j + j2)) as Arc2.
  assert (E1 : ulps r - ulps a - 360 * degree * j2
               = ulps step + (ulps new - (ulps a + ulps step)) + err2) by lia.
  assert (E2 : ulps r - ulps b - 360 * degree * (j + j2)
               = (ulps step - ulps d) + err + (ulps new - (ulps a + ulps step)) + err2)
    by lia.
  rewrite E1 in Arc1. rewrite E2 in Arc2.
  change (2 ^ 135) with (4 * 2 ^ 133). change (2 ^ 137) with (16 * 2 ^ 133).
  split; [lia|].
  pose proof (@wrapped_arc_low (ulps a) (ulps b) (ulps d) j err Ra Rb Bd Ed Herr Hj)
    as Low.
  split; [lia|].
  exists step, j. split; [exact Hs|]. split; [|split; [exact Bd|]].
  - replace (ulps d - (ulps b - ulps a + 360 * degree * j)) with err by lia.
    exact Herr.
  - split; [exact Sg|]. split; [exact Bs|]. reflexivity.
Qed.

(** *** The headings [normalize_angle] leaves as they are *)

(** A number other than a zero is determined by its value. *)
Lemma ulps_inj (x y : float) :
  number x = true -> number y = true -> ulps x = ulps y -> ulps x <> 0 -> x = y.
Proof.
  intros Hx Hy E Hnz.
  apply number_inv in Hx as [(sx & ->) | (sx & mx & ex & -> & Bx)];
    [contradiction Hnz; reflexivity|].
  apply number_inv in Hy as [(sy & ->) | (sy & my & ey & -> & By)];
    [contradiction Hnz; exact E|].
  pose proof (bounded_inv _ _ Bx) as (Hex & _).
  pose proof (bounded_inv _ _ By) as (Hey & _).
  assert (Hpx : 0 < 2 ^ (ex + 149)) by (apply Z.pow_pos_nonneg; lia).
  assert (Hpy : 0 < 2 ^ (ey + 149)) by (apply Z.pow_pos_nonneg; lia).
  cbn [ulps] in E.
  assert (Hs : sx = sy) by (destruct sx, sy; cbn [cond_Zopp] in E; try reflexivity; nia).
  subst sy.
  assert (Hv : Zpos mx * 2 ^ (ex + 149) = Zpos my * 2 ^ (ey + 149))
    by (destruct sx; cbn [cond_Zopp] in E; lia).
  pose proof (@bounded_compare mx my ex ey Bx By) as Hc.
  rewrite Hv, Z.compare_refl in Hc.
  destruct (Z.compare_spec ex ey) as [He | He | He]; try discriminate Hc.
  subst ey. apply Pos.compare_eq in Hc. subst my. reflexivity.
Qed.

(** [in_range] holds of the numbers with a value of [0, 360), -0 apart. *)
Lemma in_range_inv (h : float) :
  in_range h = true ->
  number h = true /\ 0 <= ulps h < 360 * degree /\ h <> S754_zero true.
Proof.
  destruct h as [[|] | s | | [|] m e]; try discriminate; intros H.
  - split; [reflexivity|]. split; [|discriminate].
    cbn [ulps]. unfold degree. assert (0 < 2 ^ 149) by (apply Z.pow_pos_nonneg; lia). lia.
  - cbn [in_range] in H. apply andb_prop in H as [B L].
    assert (Hn : number (S754_finite false m e) = true) by (apply number_finite; exact B).
    destruct number_of_Z_360 as (H360 & E360).
    rewrite (@SFltb_spec _ _ Hn H360), E360 in L. apply Z.ltb_lt in L.
    split; [exact Hn|]. split; [|discriminate]. split; [|exact L].
    cbn [ulps cond_Zopp]. apply Z.mul_nonneg_nonneg; [lia|]. apply Z.pow_nonneg. lia.
Qed.

Lemma in_range_intro (h : float) :
  number h = true -> 0 <= ulps h < 360 * degree -> h <> S754_zero true ->
  in_range h = true.
Proof.
  intros Hn [H0 H1] Hz. destruct number_of_Z_360 as (H360 & E360).
  pose proof (@SFltb_spec h (b32_of_Z 360) Hn H360) as L. rewrite E360 in L.
  apply Z.ltb_lt in H1. rewrite H1 in L.
  pose proof Hn as Hn'.
  apply number_inv in Hn' as [([|] & ->) | ([|] & m & e & -> & B)].
  - contradiction Hz; reflexivity.
  - reflexivity.
  - apply bounded_inv in B as (He & _). cbn [ulps cond_Zopp] in H0.
    assert (0 < 2 ^ (e + 149)) by (apply Z.pow_pos_nonneg; lia). nia.
  - cbn [in_range]. rewrite B, L. reflexivity.
Qed.

(** A heading of [0, 360) is a fixed point of [normalize_angle]. *)
Lemma normalize_angle_in_range (h : float) :
  in_range h = true -> normalize_angle h = h.
Proof.
  intros H. destruct (in_range_inv h H) as (Hn & [H0 H1] & Hz).
  rewrite normalize_angle_unfold. cbv zeta.
  destruct (@fmod_360_spec h Hn) as (Ht & Et & _). cbv zeta in Ht, Et.
  rewrite Z.rem_small in Et by lia.
  destruct number_of_Z_0 as (Hz0 & Ez0).
  rewrite (@SFltb_spec _ _ Ht Hz0), Ez0, Et.
  destruct (Z.ltb_spec (ulps h) 0) as [Hneg | _]; [lia|].
  destruct (Z.eq_dec (ulps h) 0) as [E0 | Hnz].
  - (* [h] is +0 *)
    apply number_inv in Hn as [([|] & ->) | (s & m & e & -> & B)].
    + contradiction Hz; reflexivity.
    + reflexivity.
    + apply bounded_inv in B as (He & _). cbn [ulps] in E0.
      assert (0 < 2 ^ (e + 149)) by (apply Z.pow_pos_nonneg; lia).
      destruct s; cbn [cond_Zopp] in E0; nia.
  - apply (@ulps_inj _ h Ht Hn); [exact Et | rewrite Et; exact Hnz].
Qed.

(** [normalize_angle] sends 360 to +0. *)
Lemma normalize_angle_of_360 : normalize_angle (b32_of_Z 360) = S754_zero false.
Proof. vm_compute. reflexivity. Qed.

(** [normalize_angle] returns -0 only for -0 and for the negative
    multiples of 360. *)
Lemma normalize_angle_neg_zero (x : float) :
  number x = true -> normalize_angle x = S754_zero true ->
  x = S754_zero true \/ ulps x <= - (360 * degree).
Proof.
  intros Hx. rewrite normalize_angle_unfold. cbv zeta.
  destruct (@fmod_360_spec x Hx) as (Ht & Et & Hz). cbv zeta in Ht, Et, Hz.
  set (t := b32_fmod x (b32_of_Z 360)) in *.
  destruct number_of_Z_360 as (H360 & E360). destruct number_of_Z_0 as (H0 & E0).
  assert (Hdeg : 0 < degree) by (unfold degree; apply Z.pow_pos_nonneg; lia).
  assert (Hrb : Z.abs (ulps t) < 360 * degree).
  { rewrite Et. pose proof (Z.rem_bound_abs (ulps x) (360 * degree)) as H.
    rewrite (Z.abs_eq (360 * degree)) in H by lia. apply H. lia. }
  rewrite (@SFltb_spec t (b32_of_Z 0) Ht H0), E0.
  destruct (Z.ltb_spec (ulps t) 0) as [Hneg | Hpos]; intros H.
  - apply (@SFadd_neg_zero t (b32_of_Z 360) 9 Ht H360) in H as [_ H].
    + rewrite of_Z_360 in H. discriminate H.
    + lia.
    + rewrite E360. unfold degree in *. change (2 ^ (9 + 149)) with (512 * 2 ^ 149). lia.
  - destruct (Hz H) as [-> | Hlt]; [left; reflexivity | right].
    rewrite H in Et. cbn [ulps] in Et.
    pose proof (Z.quot_rem' (ulps x) (360 * degree)) as Hq. rewrite <- Et in Hq.
    assert (ulps x ÷ (360 * degree) <= - 1) by nia. nia.
Qed.

(** The headings the program stores: a flock is constructed with the
    heading +0, and a heading that is a number of [0, 360), or 360, is
    nudged by a budget that is not negative to a heading of that kind
    again. *)
Lemma steering_nudge_stored (from to max_step : float) :
  in_range from = true \/ from = b32_of_Z 360 ->
  number to = true -> number max_step = true -> 0 <= ulps max_step ->
  let r := steering_nudge from to max_step in
  in_range r = true \/ r = b32_of_Z 360.
Proof.
  intros Hfrom Ht Hm H0. cbv zeta.
  assert (Hf : number from = true).
  { destruct Hfrom as [H | ->]; [apply (in_range_inv _ H) | apply number_of_Z_360]. }
  assert (Ha : in_range (normalize_angle from) = true).
  { destruct Hfrom as [H | ->].
    - rewrite (normalize_angle_in_range _ H). exact H.
    - rewrite normalize_angle_of_360. reflexivity. }
  destruct (@steering_nudge_ulps from to max_step Hf Ht Hm H0)
    as ((_ & _ & _ & Hr) & (Ra & _ & Rr) & _ & _
        & step & k & Hs & _ & Bd & _ & Bs & Er).
  cbv zeta in *.
  set (a := normalize_angle from) in *.
  set (r := steering_nudge from to max_step) in *.
  destruct (in_range_inv a Ha) as (Hna & _ & Hnz).
  assert (Hpow : 2 ^ 149 = 65536 * 2 ^ 133) by reflexivity.
  assert (Hu : 0 < 2 ^ 133) by (apply Z.pow_pos_nonneg; lia).
  destruct (Z.eq_dec (ulps r) (360 * degree)) as [E | Hne].
  - right. destruct number_of_Z_360 as (H360 & E360).
    apply (@ulps_inj r (b32_of_Z 360) Hr H360); [congruence|].
    rewrite E. unfold degree. rewrite Hpow. lia.
  - left. apply in_range_intro; [exact Hr | lia |].
    intros Hz. rewrite Er in Hz.
    assert (Hbound : Z.abs (ulps a + ulps step) < 2 ^ (10 + 149)).
    { unfold degree in *. change (2 ^ (10 + 149)) with (1024 * 2 ^ 149).
      rewrite Hpow in *. lia. }
    destruct (@SFadd_spec a step 10 Hna Hs) as (Hn & Herr & _); [lia | exact Hbound |].
    change (2 ^ (10 - 24 + 149)) with (4 * 2 ^ 133) in Herr.
    apply (@normalize_angle_neg_zero _ Hn) in Hz as [Hz | Hz].
    + apply (@SFadd_neg_zero a step 10 Hna Hs) in Hz as [Hz _];
        [contradiction | lia | exact Hbound].
    + unfold degree in *. rewrite Hpow in *. lia.
Qed.
End Rounding32.

(** ** Single precision: [steering_nudge] within a tolerance *)

Section Tolerance32.
Import Binary32.
Local Open Scope Q_scope.













End Tolerance32.

(** ** The flock update in exact arithmetic *)

Section ExactFlock.
Import Exact.
Local Open Scope R_scope.

Ltac exact_ops :=
  cbn [of_Z lit_pi M_PI fadd fsub fmul fdiv fneg flt fabs fmod sum_pow2 sqrtf
       atan2 fcos fsin arith trig] in *.

Lemma distance_self (p : Vector2f R) : distance p p = 0.
Proof.
  unfold distance. exact_ops.
  rewrite !Rminus_diag, Rabs_R0.
  replace (0 ^ 2 + 0 ^ 2) with 0 by ring. apply sqrt_0.
Qed.

Lemma Ratan2_origin : Ratan2 0 0 = 0.
Proof.
  unfold Ratan2.
  destruct (Rlt_dec 0 0) as [H | _]; [lra|]. reflexivity.
Qed.

(** The bearing of a point to itself is the angle 0. *)
Lemma angle_to_self (p : Vector2f R) : angle_to p p = 0.
Proof.
  unfold angle_to, vsub. cbn [vx vy]. exact_ops.
  rewrite !Rminus_diag, Ratan2_origin. unfold Rdiv. ring.
Qed.

Lemma steering_nudge_zero_budget (from to : R) :
  steering_nudge from to 0 = normalize_angle from.
Proof.
  rewrite steering_nudge_unfold. cbv zeta.
  set (d := wrapped_difference _ _).
  assert (E : Rltb (Rabs d) 0 = false) by (apply Rltb_false, Rabs_pos).
  rewrite E. destruct (Rltb 0 d);
    [rewrite Rplus_0_r | rewrite Ropp_0, Rplus_0_r]; apply normalize_angle_idem.
Qed.

(** A nudge toward a heading that lies ahead (counter-clockwise), and one
    toward a heading that lies behind, both farther away than the budget. *)
Lemma steering_nudge_ahead (a b f : R) :
  0 <= a -> b < 360 -> 0 <= f <= b - a -> b - a <= 180 -> 0 < b - a ->
  steering_nudge a b f = a + f.
Proof.
  intros Ha Hb Hf Hd Hpos. rewrite steering_nudge_unfold. cbv zeta.
  rewrite (normalize_angle_fixed (theta := a)), (normalize_angle_fixed (theta := b)) by lra.
  rewrite wrapped_difference_unfold.
  replace (Rltb 180 (b - a)) with false by (symmetry; apply Rltb_false; lra).
  replace (Rltb (b - a) (- 180)) with false by (symmetry; apply Rltb_false; lra).
  replace (Rltb 0 (b - a)) with true by (symmetry; apply Rltb_true; lra).
  rewrite (Rabs_pos_eq (b - a)) by lra.
  destruct (Rltb (b - a) f) eqn:E;
    [apply Rltb_true in E; lra | apply normalize_angle_fixed; lra].
Qed.

Lemma steering_nudge_behind (a b f : R) :
  0 <= b -> a < 360 -> 0 <= f <= a - b -> a - b <= 180 -> 0 < a - b ->
  steering_nudge a b f = a - f.
Proof.
  intros Ha Hb Hf Hd Hpos. rewrite steering_nudge_unfold. cbv zeta.
  rewrite (normalize_angle_fixed (theta := a)), (normalize_angle_fixed (theta := b)) by lra.
  rewrite wrapped_difference_unfold.
  replace (Rltb 180 (b - a)) with false by (symmetry; apply Rltb_false; lra).
  replace (Rltb (b - a) (- 180)) with false by (symmetry; apply Rltb_false; lra).
  replace (Rltb 0 (b - a)) with false by (symmetry; apply Rltb_false; lra).
  rewrite (Rabs_left (b - a)) by lra.
  destruct (Rltb (- (b - a)) f) eqn:E;
    [apply Rltb_true in E; lra |].
  replace (a + - f) with (a - f) by ring. apply normalize_angle_fixed; lra.
Qed.

Lemma opposite_angle_0 : opposite_angle 0 = 180.
Proof.
  unfold opposite_angle. rewrite (normalize_angle_fixed (theta := 0)) by lra.
  exact_ops. rewrite Rplus_0_l. apply normalize_angle_fixed. lra.
Qed.

Lemma in_ring_twins (a b : Boid R) :
  pos a = pos b -> in_ring a b = negb (boid_eqb a b).
Proof.
  intros E. unfold in_ring, separationRing. rewrite <- E, distance_self.
  exact_ops. replace (Rltb 0 20) with true by (symmetry; apply Rltb_true; lra).
  apply andb_true_r.
Qed.

(** The separation pass on the twins, with [delta_time] 1: each has the
    other as its neighbour, at bearing 0; the opposite is 180 and the
    budget 90. *)
Lemma twins_after_separation :
  separation 1 twins
  = [mkBoid (mkVector2f 0 200) 90 0%nat; mkBoid (mkVector2f 0 200) 90 1%nat].
Proof.
  rewrite separation_snapshot. unfold twins, separate, boid_angles.
  cbn [map filter]. rewrite !in_ring_twins by reflexivity.
  cbn [boid_eqb id Nat.eqb negb map pos]. rewrite !angle_to_self.
  assert (Em : mean [0] = 0).
  { unfold mean, accumulate. cbn [fold_left length Z.of_nat Pos.of_succ_nat].
    exact_ops. lra. }
  rewrite Em, opposite_angle_0. unfold separation_force, set_rot. cbn [pos rot id].
  exact_ops. rewrite Rmult_1_r.
  rewrite (steering_nudge_ahead (a := 0) (b := 180) (f := 90)) by lra.
  rewrite Rplus_0_l. reflexivity.
Qed.

Lemma twins_after_cohesion :
  cohesion 1 (separation 1 twins)
  = [mkBoid (mkVector2f 0 200) 30 0%nat; mkBoid (mkVector2f 0 200) 30 1%nat].
Proof.
  rewrite twins_after_separation. unfold cohesion.
  assert (Ec : center [mkBoid (mkVector2f 0 200) 90 0%nat;
                       mkBoid (mkVector2f 0 200) 90 1%nat] = mkVector2f 0 200).
  { unfold center, mean, accumulate.
    cbn [map fold_left length Z.of_nat Pos.of_succ_nat Pos.succ pos vx vy].
    exact_ops. f_equal; lra. }
  rewrite Ec. cbn [map pos rot]. rewrite angle_to_self.
  unfold cohesion_force, set_rot. cbn [pos rot id]. exact_ops. rewrite Rmult_1_r.
  rewrite (steering_nudge_behind (a := 90) (b := 0) (f := 60)) by lra.
  replace (90 - 60) with 30 by lra. reflexivity.
Qed.

(** C8 fails: the twins share position (0, 200) and heading 0; with
    [delta_time] 1 the separation pass turns both to 90 degrees and the
    cohesion pass, toward the bearing 0 of the centroid they stand on,
    turns both back to 30 degrees.  The cohesion nudge is not a no-op. *)
Lemma twins_cohesion_turns :
  uniform (mkVector2f 0 200) 0 twins /\
  map (@rot R) (separation 1 twins) = [90; 90] /\
  map (@rot R) (cohesion 1 (separation 1 twins)) = [30; 30] /\
  cohesion 1 (separation 1 twins) <> separation 1 twins.
Proof.
  split; [|split; [|split]].
  - intros b [<- | [<- | []]]; split; reflexivity.
  - rewrite twins_after_separation. reflexivity.
  - rewrite twins_after_cohesion. reflexivity.
  - rewrite twins_after_cohesion, twins_after_separation. intros H.
    injection H as H _. lra.
Qed.

Lemma coincident_flock_stays_coincident_witness :
  NoDup (map (@id R) twins) /\ uniform (mkVector2f 0 200) 0 twins /\
  exists p' h', uniform p' h' (update 1 twins).
Proof.
  assert (Hnd : NoDup (map (@id R) twins)).
  { cbn. repeat constructor; cbn; intuition discriminate. }
  assert (Hu : uniform (mkVector2f 0 200) 0 twins).
  { intros b [<- | [<- | []]]; split; reflexivity. }
  split; [exact Hnd|]. split; [exact Hu|].
  destruct (coincident_flock_stays_coincident 1 Hnd Hu)
    as (h1 & h2 & h3 & _ & _ & _ & _ & H).
  eexists; eexists; exact H.
Defined.

Lemma movement_advances_witness :
  nth_error twins 1 = Some (mkBoid (mkVector2f 0 200) 0 1%nat) /\
  exists heading : R,
    nth_error (update 1 twins) 1
    = Some (mkBoid
              (mkVector2f
                 (0 + cos (heading * (3.141592653 / 180)) * 10 * 1)
                 (200 + sin (heading * (3.141592653 / 180)) * 10 * 1))
              heading 1%nat).
Proof.
  split; [reflexivity|].
  destruct (movement_advances 1 twins 1 (b := mkBoid (mkVector2f 0 200) 0 1%nat) eq_refl)
    as (heading & radians & _ & -> & _ & H).
  exists heading. exact H.
Defined.

(** In exact arithmetic, [update] with [delta_time] 0 normalizes every
    heading and changes nothing else. *)
Lemma separate_zero (l : list (Boid R)) (x : Boid R) :
  pos (separate 0 l x) = pos x /\ id (separate 0 l x) = id x /\
  normalize_angle (rot (separate 0 l x)) = normalize_angle (rot x).
Proof.
  unfold separate. destruct (boid_angles l x); [auto|].
  unfold set_rot, separation_force. cbn [pos rot id]. exact_ops.
  rewrite Rmult_0_r, steering_nudge_zero_budget, normalize_angle_idem. auto.
Qed.

Theorem update_zero_exact (boids : list (Boid R)) :
  update 0 boids = map (fun b => set_rot b (normalize_angle (rot b))) boids.
Proof.
  unfold update, movement, alignment, cohesion.
  rewrite separation_snapshot, !map_map. apply map_ext. intros b.
  unfold set_pos, set_rot, displacement, vadd, cohesion_force, alignment_force.
  cbn [pos rot id vx vy]. exact_ops.
  destruct (separate_zero boids b) as (Hp & Hi & Hr).
  rewrite !Rmult_0_r, !Rplus_0_r, !steering_nudge_zero_budget.
  rewrite normalize_angle_idem, Hp, Hi, Hr. destruct (pos b). reflexivity.
Qed.

Corollary update_zero_exact_normalized (boids : list (Boid R)) :
  (forall b, In b boids -> 0 <= rot b < 360) -> update 0 boids = boids.
Proof.
  intros H. rewrite update_zero_exact. rewrite <- (map_id boids) at 2.
  apply map_ext_in. intros b Hb.
  rewrite (normalize_angle_fixed (H b Hb)). destruct b. reflexivity.
Qed.
(** In exact arithmetic every heading the update leaves is in [0, 360):
    the cohesion and alignment passes write every agent, with a value of
    [normalize_angle]; and a flock is constructed with the heading 0. *)
Lemma steering_nudge_range (from to force : R) :
  0 <= steering_nudge from to force < 360.
Proof. rewrite steering_nudge_unfold. apply normalize_angle_range. Qed.

Theorem update_headings_exact (delta_time : R) (boids : list (Boid R)) (b : Boid R) :
  In b (update delta_time boids) -> 0 <= rot b < 360.
Proof.
  unfold update, movement, alignment. rewrite map_map. intros H.
  apply in_map_iff in H as (a & <- & _).
  unfold set_pos, set_rot. cbn [rot]. apply steering_nudge_range.
Qed.

Lemma System_headings_exact (n : nat) (b : Boid R) :
  In b (System n) -> 0 <= rot b < 360.
Proof.
  unfold System, System_from. intros H. apply in_map_iff in H as (i & <- & _).
  cbn [rot]. exact_ops. lra.
Qed.

(** The two agents of [System 2] stand 20 units apart: neither is strictly
    inside the ring of the other. *)
Lemma System_2_distance :
  distance (mkVector2f (20 * 0) 200) (mkVector2f (20 * 1) 200) = 20.
Proof.
  unfold distance. cbn [vx vy]. exact_ops.
  replace (20 * 1 - 20 * 0) with 20 by ring. rewrite Rminus_diag, Rabs_R0.
  rewrite (Rabs_pos_eq 20) by lra.
  replace (20 ^ 2 + 0 ^ 2) with (20 * 20) by ring.
  apply sqrt_square. lra.
Qed.

Lemma separation_without_neighbor_witness :
  let x := mkBoid (mkVector2f (20 * 0) 200) 0 0%nat in
  nth_error (System 2) 0 = Some x /\
  (forall y, In y (System 2) -> boid_eqb x y = false ->
             flt (distance (pos x) (pos y)) (of_Z 20) = false) /\
  nth_error (separation 1 (System 2)) 0 = Some x.
Proof.
  cbv zeta.
  assert (Hx : nth_error (System (F := R) 2) 0
               = Some (mkBoid (mkVector2f (20 * 0) 200) 0 0%nat)) by reflexivity.
  assert (Hfar : forall y, In y (System (F := R) 2) ->
            boid_eqb (mkBoid (mkVector2f (20 * 0) 200) 0 0%nat) y = false ->
            flt (distance (pos (mkBoid (mkVector2f (20 * 0) 200) 0 0%nat)) (pos y))
                (of_Z 20) = false).
  { intros y [<- | [<- | []]] Hy; [discriminate Hy|].
    cbn [pos]. change (of_Z (Z.of_nat 1)) with 1. change (of_Z 20) with 20.
    change (of_Z 200) with 200. change (fmul 20 1) with (20 * 1).
    rewrite System_2_distance. apply Rltb_false. lra. }
  split; [exact Hx|]. split; [exact Hfar|].
  apply (separation_without_neighbor 1 (System 2) 0 Hx Hfar).
Defined.
End ExactFlock.

(** ** The flock update in single precision *)

Section Binary32Flock.
Import Binary32.
Local Open Scope float_scope.

Lemma sf_eqb_eq (u v : float) : sf_eqb u v = true -> u = v.
Proof.
  destruct u as [s | s | | s m e], v as [s' | s' | | s' m' e']; cbn;
    try discriminate; try reflexivity.
  - intros H. apply Bool.eqb_prop in H. congruence.
  - intros H. apply Bool.eqb_prop in H. congruence.
  - intros H. apply andb_prop in H as [H He]. apply andb_prop in H as [Hs Hm].
    apply Bool.eqb_prop in Hs. apply Pos.eqb_eq in Hm. apply Z.eqb_eq in He.
    congruence.
Qed.

(** No magnitude is below +0: with a budget of +0 the adjustment is the
    budget. *)
Lemma abs_not_below_zero (d : float) : (fabs d <? S754_zero false) = false.
Proof. destruct d as [s | s | | s m e]; reflexivity. Qed.

Lemma steering_nudge_zero_budget_b32 (from to : float) :
  exists z : float,
    (z = S754_zero false \/ z = S754_zero true) /\
    steering_nudge from to (S754_zero false)
    = normalize_angle (normalize_angle from + z).
Proof.
  unfold steering_nudge. cbv zeta.
  set (d := wrapped_difference _ _). rewrite abs_not_below_zero.
  destruct (d >? of_Z 0); eexists; (split; [|reflexivity]);
    [left | right]; reflexivity.
Qed.

(** *** One agent, ticks of 1/60 s *)

Section Lone.
Context {T : FloatTrig float}.
Hypothesis annexF : AnnexF T.

Lemma center_lone (x : float) :
  steady x = true -> center (lone x) = mkVector2f x (b32_of_Z 200).
Proof.
  intros H. unfold steady in H.
  apply andb_prop in H as [H _]. apply andb_prop in H as [H _].
  apply sf_eqb_eq in H.
  unfold center, lone, mean, accumulate.
  cbn [map fold_left length pos vx vy Z.of_nat Pos.of_succ_nat].
  f_equal; first [exact H | vm_compute; reflexivity].
Qed.

Lemma bearing_lone (x : float) :
  steady x = true ->
  angle_to (mkVector2f x (b32_of_Z 200)) (mkVector2f x (b32_of_Z 200))
  = S754_zero false.
Proof.
  intros H. unfold steady in H.
  apply andb_prop in H as [H _]. apply andb_prop in H as [_ H].
  apply sf_eqb_eq in H.
  unfold angle_to, vsub. cbn [vx vy].
  change (x - x) with (SFsub prec emax x x). rewrite H.
  replace (b32_of_Z 200 - b32_of_Z 200) with (S754_zero false)
    by (vm_compute; reflexivity).
  pose proof annexF as (Ha & _ & _). rewrite Ha. vm_compute. reflexivity.
Qed.

(** One tick of the lone agent: no division by zero (each mean is over one
    sample), the bearing to itself is +0, the heading stays +0 and the
    abscissa advances by [stride]. *)
Lemma update_lone (x : float) :
  steady x = true -> update dt60 (lone x) = lone (SFadd prec emax x stride).
Proof.
  intros H. unfold update.
  unfold lone at 1. rewrite separation_single. fold (lone x).
  unfold cohesion. rewrite (center_lone x H). unfold lone at 1.
  cbn [map pos rot]. rewrite (bearing_lone x H).
  replace (steering_nudge (b32_of_Z 0) (S754_zero false) (cohesion_force * dt60))
    with (S754_zero false) by (vm_compute; reflexivity).
  unfold set_rot. cbn [pos rot id].
  unfold alignment, average_rotation. cbn [map pos rot id].
  replace (steering_nudge (S754_zero false) (mean [S754_zero false])
                          (alignment_force * dt60))
    with (S754_zero false) by (vm_compute; reflexivity).
  unfold movement, set_pos, displacement, vadd. cbn [map pos rot id vx vy].
  replace (degrees_to_radians (S754_zero false)) with (S754_zero false)
    by (vm_compute; reflexivity).
  pose proof annexF as (_ & Hc & Hs). rewrite Hc, Hs.
  unfold lone. repeat f_equal.
Qed.

Lemma steady_upto_inv (n k : nat) :
  steady_upto n = true -> (k <= n)%nat -> steady (x_after k) = true.
Proof.
  unfold steady_upto. intros H Hk.
  rewrite forallb_forall in H. apply H. apply in_seq. lia.
Qed.

Lemma x_after_S (j : nat) : x_after (S j) = SFadd prec emax (x_after j) stride.
Proof. reflexivity. Qed.

Lemma ticks_lone (n : nat) :
  steady_upto n = true ->
  forall k j, (j + k <= n)%nat ->
  ticks k dt60 (lone (x_after j)) = lone (x_after (j + k)).
Proof.
  intros H. induction k as [| k IH]; intros j Hj.
  - rewrite Nat.add_0_r. reflexivity.
  - rewrite ticks_S. rewrite update_lone by (apply (@steady_upto_inv n j H); lia).
    rewrite <- x_after_S.
    replace (j + S k)%nat with (S j + k)%nat by lia.
    apply IH. lia.
Qed.

(** C9: a flock constructed with one agent, ticked with [delta_time] 1/60
    by a library that meets Annex F at zero: after each of the first 1000
    ticks the flock is again one agent, at height 200 with heading +0 and
    a finite abscissa.  No value is a NaN or an infinity; the means divide
    by the flock size 1 and the bearing of the agent to itself is +0
    ([bearing_lone]). *)
Theorem single_agent_1000_ticks (k : nat) :
  (k <= 1000)%nat ->
  ticks k dt60 (System 1) = lone (x_after k) /\
  is_finite (x_after k) = true /\
  is_finite (b32_of_Z 200) = true /\ is_finite (b32_of_Z 0) = true /\
  (b32_of_Z 0 <? of_Z (Z.of_nat (length (ticks k dt60 (System 1))))) = true.
Proof.
  intros Hk.
  assert (H : steady_upto 1000 = true) by (vm_compute; reflexivity).
  assert (E : ticks k dt60 (System 1) = lone (x_after k)).
  { replace (System 1) with (lone (x_after 0)) by (vm_compute; reflexivity).
    apply (@ticks_lone 1000 H k 0%nat). lia. }
  split; [exact E|]. split; [|split; [|split]]; try reflexivity.
  - pose proof (@steady_upto_inv 1000 k H Hk) as Hs. unfold steady in Hs.
    apply andb_prop in Hs as [_ Hs]. exact Hs.
  - rewrite E. reflexivity.
Qed.
End Lone.

Lemma zero_only_trig_annexF : AnnexF zero_only_trig.
Proof. repeat split. Qed.

Lemma single_agent_1000_ticks_witness :
  AnnexF zero_only_trig /\ (1000 <= 1000)%nat /\
  ticks (T := zero_only_trig) 1000 dt60 (System 1) = lone (x_after 1000).
Proof.
  split; [exact zero_only_trig_annexF|]. split; [lia|].
  apply (single_agent_1000_ticks zero_only_trig_annexF (k := 1000)). lia.
Defined.
(** *** [delta_time] 0 *)

(** Adding a zero of either sign gives the first operand back, unless
    that operand is -0. *)
Lemma add_zero_r (x z : float) :
  x <> S754_zero true -> z = S754_zero false \/ z = S754_zero true ->
  x + z = x.
Proof.
  intros Hx [-> | ->]; destruct x as [[|] | s | | s m e];
    try reflexivity; contradiction Hx; reflexivity.
Qed.

(** A finite number times +0 is a zero. *)
Lemma mul_zero_r (u : float) :
  is_finite u = true ->
  u * b32_of_Z 0 = S754_zero false \/ u * b32_of_Z 0 = S754_zero true.
Proof.
  destruct u as [[|] | s | | [|] m e]; cbn [is_finite]; intros H;
    try discriminate H; auto.
Qed.

(** With a budget of +0 a heading goes to the fixed point of
    [normalize_angle] it normalizes to. *)
Lemma steering_nudge_zero_budget_fixed (from to h : float) :
  normalize_angle from = h -> normalize_angle h = h -> h <> S754_zero true ->
  steering_nudge from to (S754_zero false) = h.
Proof.
  intros Hn Hh Hz.
  destruct (steering_nudge_zero_budget_b32 from to) as (z & Hzz & ->).
  rewrite Hn, (@add_zero_r h z Hz Hzz). exact Hh.
Qed.

Lemma separate_zero_b32 {T : FloatTrig float} (l : list (Boid float))
  (x : Boid float) (h : float) :
  normalize_angle (rot x) = h -> normalize_angle h = h -> h <> S754_zero true ->
  pos (separate (b32_of_Z 0) l x) = pos x /\
  id (separate (b32_of_Z 0) l x) = id x /\
  normalize_angle (rot (separate (b32_of_Z 0) l x)) = h.
Proof.
  intros Hn Hh Hz. unfold separate. destruct (boid_angles l x); [auto|].
  unfold set_rot. cbn [pos rot id].
  replace (separation_force * b32_of_Z 0) with (S754_zero false)
    by (vm_compute; reflexivity).
  rewrite (@steering_nudge_zero_budget_fixed _ _ h Hn Hh Hz). auto.
Qed.

(** The update of one agent at [delta_time] 0, as a function of the agent
    the separation pass leaves. *)
Lemma update_zero_agent {T : FloatTrig float} (a : Boid float) (to to' h : float) :
  normalize_angle (rot a) = h -> normalize_angle h = h -> h <> S754_zero true ->
  vx (pos a) <> S754_zero true -> vy (pos a) <> S754_zero true ->
  is_finite (fcos (degrees_to_radians h) * of_Z 10) = true ->
  is_finite (fsin (degrees_to_radians h) * of_Z 10) = true ->
  let c := set_rot a (steering_nudge (rot a) to (cohesion_force * b32_of_Z 0)) in
  let d := set_rot c (steering_nudge (rot c) to' (alignment_force * b32_of_Z 0)) in
  set_pos d (vadd (pos d) (displacement (b32_of_Z 0) (rot d)))
  = mkBoid (pos a) h (id a).
Proof.
  intros Hn Hh Hz Hx Hy Hc Hs. cbv zeta.
  replace (cohesion_force * b32_of_Z 0) with (S754_zero false)
    by (vm_compute; reflexivity).
  replace (alignment_force * b32_of_Z 0) with (S754_zero false)
    by (vm_compute; reflexivity).
  unfold set_pos, set_rot. cbn [pos rot id].
  rewrite (@steering_nudge_zero_budget_fixed _ to h Hn Hh Hz).
  rewrite (@steering_nudge_zero_budget_fixed h to' h Hh Hh Hz).
  unfold vadd, displacement, movement_speed. cbn [vx vy].
  rewrite (@add_zero_r _ _ Hx (@mul_zero_r _ Hc)), (@add_zero_r _ _ Hy (@mul_zero_r _ Hs)).
  destruct (pos a). reflexivity.
Qed.

(** C10: in single precision and with any library for the cosine and the
    sine, an update with [delta_time] 0 leaves every position and every
    identity as they are and sets every heading to [normalize_angle] of
    its previous value, in every flock whose headings [normalize_angle]
    sends into [0, 360) (as it does the heading 0 of the constructor and
    the headings [steering_nudge] returns from such a heading, for a
    target and a budget that are numbers and a budget that is not
    negative: [steering_nudge_stored]), whose coordinates are not -0 and
    for whose headings the cosine and the sine times 10 are finite. If
    moreover every heading is itself in [0, 360), the update returns the
    flock as it is. *)
Theorem update_zero_normalizes (T : FloatTrig float) (boids : list (Boid float)) :
  (forall b, In b boids ->
     let h := normalize_angle (rot b) in
     in_range h = true /\
     vx (pos b) <> S754_zero true /\ vy (pos b) <> S754_zero true /\
     is_finite (fcos (degrees_to_radians h) * of_Z 10) = true /\
     is_finite (fsin (degrees_to_radians h) * of_Z 10) = true) ->
  update (b32_of_Z 0) boids
  = map (fun b => mkBoid (pos b) (normalize_angle (rot b)) (id b)) boids /\
  ((forall b, In b boids -> in_range (rot b) = true) ->
   update (b32_of_Z 0) boids = boids).
Proof.
  intros H.
  assert (E : update (b32_of_Z 0) boids
              = map (fun b => mkBoid (pos b) (normalize_angle (rot b)) (id b)) boids).
  { unfold update, movement, alignment, cohesion.
    rewrite separation_snapshot, !map_map. apply map_ext_in. intros b Hb.
    destruct (H b Hb) as (Hr & Hx & Hy & Hc & Hs). cbv zeta in *.
    pose proof (normalize_angle_in_range _ Hr) as Hh.
    destruct (in_range_inv _ Hr) as (_ & _ & Hz).
    destruct (@separate_zero_b32 T boids b _ eq_refl Hh Hz) as (Hp & Hi & Hr').
    rewrite <- Hp in Hx, Hy.
    rewrite (@update_zero_agent T _ _ _ _ Hr' Hh Hz Hx Hy Hc Hs), Hp, Hi.
    reflexivity. }
  split; [exact E|].
  intros Hfix. rewrite E. rewrite <- (map_id boids) at 2.
  apply map_ext_in. intros b Hb.
  rewrite (normalize_angle_in_range _ (Hfix b Hb)). destruct b. reflexivity.
Qed.

Lemma update_zero_normalizes_witness :
  let boids :=
    [mkBoid (mkVector2f (b32_of_Z 0) (b32_of_Z 200)) (b32_of_Z 360) 0;
     mkBoid (mkVector2f (b32_of_Z 20) (b32_of_Z 200)) (b32_of_Z 0) 1] in
  update (T := zero_only_trig) (b32_of_Z 0) boids
  = [mkBoid (mkVector2f (b32_of_Z 0) (b32_of_Z 200)) (b32_of_Z 0) 0;
     mkBoid (mkVector2f (b32_of_Z 20) (b32_of_Z 200)) (b32_of_Z 0) 1].
Proof.
  cbv zeta.
  refine (proj1 (@update_zero_normalizes zero_only_trig _ _)).
  intros b [<- | [<- | []]]; vm_compute; repeat split; discriminate.
Defined.

(** Outside that domain: [normalize_angle] sends the heading -2^-30 to
    360, which is not in [0, 360), and the update, which normalizes the
    heading once more, leaves +0. *)
Lemma update_zero_full_turn (T : FloatTrig float) :
  let b := mkBoid (mkVector2f (b32_of_Z 0) (b32_of_Z 200)) (- pow2 (- 30)) 0 in
  normalize_angle (rot b) = b32_of_Z 360 /\
  map (@rot float) (update (b32_of_Z 0) [b]) = [S754_zero false].
Proof.
  cbv zeta. split; [vm_compute; reflexivity|].
  unfold update. rewrite map_rot_movement, separation_single.
  unfold alignment, cohesion, average_rotation, set_rot. cbn [map pos rot id].
  replace (cohesion_force * b32_of_Z 0) with (S754_zero false)
    by (vm_compute; reflexivity).
  replace (alignment_force * b32_of_Z 0) with (S754_zero false)
    by (vm_compute; reflexivity).
  set (to := angle_to _ _).
  destruct (steering_nudge_zero_budget_b32 (- pow2 (- 30)) to) as (z & Hz & ->).
  assert (E : normalize_angle (normalize_angle (- pow2 (- 30)) + z) = S754_zero false)
    by (destruct Hz as [-> | ->]; vm_compute; reflexivity).
  rewrite E. set (to' := mean _).
  destruct (steering_nudge_zero_budget_b32 (S754_zero false) to') as (z' & Hz' & ->).
  destruct Hz' as [-> | ->]; vm_compute; reflexivity.
Qed.

(** *** Three agents at one place, a tick of 2^-30 s *)

Section Trio.
Context {T : FloatTrig float}.
Hypothesis atan2_origin :
  atan2 (S754_zero false) (S754_zero false) = S754_zero false.

Lemma bearing_here : angle_to here here = S754_zero false.
Proof.
  unfold angle_to.
  replace (vsub here here) with (mkVector2f (S754_zero false) (S754_zero false))
    by (vm_compute; reflexivity).
  cbn [vx vy]. rewrite atan2_origin. vm_compute. reflexivity.
Qed.

Lemma boid_angles_trio (h : float) (x : Boid float) :
  In x (trio_with h) ->
  boid_angles (trio_with h) x = [S754_zero false; S754_zero false].
Proof.
  intros Hx. rewrite (boid_angles_same_place (trio_with h) (p := here) x).
  - replace (distance here here <? separationRing) with true
      by (vm_compute; reflexivity).
    unfold trio_with. cbn [length pred repeat]. rewrite bearing_here. reflexivity.
  - cbn. repeat constructor; cbn; intuition discriminate.
  - intros b [<- | [<- | [<- | []]]]; reflexivity.
  - exact Hx.
Qed.

(** The separation nudge, toward 180 degrees with the budget 90 * 2^-30:
    the outer agents stay at 300 by rounding, the middle one moves. *)
Lemma trio_after_separation :
  separation (pow2 (- 30)) trio = trio_with (b32_of_Z 90 * pow2 (- 30)).
Proof.
  rewrite separation_snapshot. unfold separate.
  unfold trio. unfold trio_with at 2. cbn [map].
  rewrite !boid_angles_trio by (cbn; auto).
  vm_compute. reflexivity.
Qed.

(** The cohesion nudge, toward the bearing 0 with the budget 60 * 2^-30. *)
Lemma trio_after_cohesion :
  cohesion (pow2 (- 30)) (trio_with (b32_of_Z 90 * pow2 (- 30)))
  = trio_with (b32_of_Z 30 * pow2 (- 30)).
Proof.
  unfold cohesion.
  replace (center (trio_with (b32_of_Z 90 * pow2 (- 30)))) with here
    by (vm_compute; reflexivity).
  unfold trio_with at 1. cbn [map pos rot]. fold here. rewrite bearing_here.
  vm_compute. reflexivity.
Qed.

Lemma boid_angles_twins32 (x : Boid float) :
  In x twins32 -> boid_angles twins32 x = [S754_zero false].
Proof.
  intros Hx. rewrite (boid_angles_same_place twins32 (p := here) x).
  - replace (distance here here <? separationRing) with true
      by (vm_compute; reflexivity).
    unfold twins32. cbn [length pred repeat]. rewrite bearing_here. reflexivity.
  - cbn. repeat constructor; cbn; intuition discriminate.
  - intros b [<- | [<- | []]]; reflexivity.
  - exact Hx.
Qed.

(** Twins in single precision behave as twins in exact arithmetic: with
    [delta_time] 1, the separation pass turns them to 90 degrees and the
    cohesion pass back to 30. *)
Lemma twins32_cohesion_turns :
  separation (b32_of_Z 1) twins32
  = [mkBoid here (b32_of_Z 90) 0; mkBoid here (b32_of_Z 90) 1] /\
  cohesion (b32_of_Z 1) (separation (b32_of_Z 1) twins32)
  = [mkBoid here (b32_of_Z 30) 0; mkBoid here (b32_of_Z 30) 1].
Proof.
  assert (E : separation (b32_of_Z 1) twins32
              = [mkBoid here (b32_of_Z 90) 0; mkBoid here (b32_of_Z 90) 1]).
  { rewrite separation_snapshot. unfold separate.
    unfold twins32 at 2. cbn [map].
    rewrite !boid_angles_twins32 by (cbn; auto).
    vm_compute. reflexivity. }
  split; [exact E|]. rewrite E. unfold cohesion.
  replace (center [mkBoid here (b32_of_Z 90) 0; mkBoid here (b32_of_Z 90) 1])
    with here by (vm_compute; reflexivity).
  cbn [map pos rot]. rewrite bearing_here. vm_compute. reflexivity.
Qed.

(** C4, at the failing input: the headings of the trio are 300, 0 and 300
    degrees, all in [0, 360).  With [delta_time] 2^-30 the outer agents
    stay at 300 by rounding; the middle agent is turned to 90 * 2^-30 by
    the separation pass, back to 30 * 2^-30 by the cohesion pass, and by
    the alignment pass 50 * 2^-30 degrees the short way toward the mean
    heading 200, to -20 * 2^-30, for which [normalize_angle] returns 360. *)
Theorem trio_heading_360 :
  forallb (fun b => negb (rot b <? b32_of_Z 0) && (rot b <? b32_of_Z 360)) trio = true /\
  map (@rot float) (update (pow2 (- 30)) trio)
  = [b32_of_Z 300; b32_of_Z 360; b32_of_Z 300].
Proof.
  split; [vm_compute; reflexivity|].
  unfold update. rewrite map_rot_movement, trio_after_separation, trio_after_cohesion.
  vm_compute. reflexivity.
Qed.
End Trio.

Lemma trio_heading_360_witness :
  atan2 (FloatTrig := zero_only_trig) (S754_zero false) (S754_zero false)
  = S754_zero false /\
  map (@rot float) (update (T := zero_only_trig) (pow2 (- 30)) trio)
  = [b32_of_Z 300; b32_of_Z 360; b32_of_Z 300].
Proof.
  split; [reflexivity|].
  apply (trio_heading_360 (T := zero_only_trig) eq_refl).
Defined.
End Binary32Flock.

(** ** Further properties of the flock, for every interpretation *)

Section FlockInvariants.
Context {F : Type} {A : FloatArith F} {T : FloatTrig F}.
Local Open Scope float_scope.

Lemma map_id_update (dt : F) (boids : list (Boid F)) :
  map (@id F) (update dt boids) = map (@id F) boids.
Proof.
  unfold update, movement, alignment, cohesion.
  rewrite separation_snapshot, !map_map. apply map_ext. intros b.
  unfold set_pos, set_rot. cbn [id].
  apply (separate_keeps_place dt boids b).
Qed.

(** X1: [update], called any number of times, neither adds nor removes
    nor reorders agents, and leaves every identity as it is: the list of
    identities of the flock is the same after [n] ticks. *)
Theorem ticks_keep_identities (n : nat) (delta_time : F) (boids : list (Boid F)) :
  map (@id F) (ticks n delta_time boids) = map (@id F) boids /\
  length (ticks n delta_time boids) = length boids.
Proof.
  assert (H : map (@id F) (ticks n delta_time boids) = map (@id F) boids).
  { revert boids. induction n as [| n IH]; intros boids; [reflexivity|].
    rewrite ticks_S, IH. apply map_id_update. }
  split; [exact H|].
  rewrite <- (length_map (@id F) (ticks n delta_time boids)), H.
  apply length_map.
Qed.

Lemma center_positions (l l' : list (Boid F)) :
  map (@pos F) l = map (@pos F) l' -> center l = center l'.
Proof.
  intros H. unfold center.
  rewrite <- !(map_map (@pos F) (@vx F)), <- !(map_map (@pos F) (@vy F)), H.
  reflexivity.
Qed.

Lemma map_pos_separation (dt : F) (boids : list (Boid F)) :
  map (@pos F) (separation dt boids) = map (@pos F) boids.
Proof.
  rewrite separation_snapshot, map_map. apply map_ext. intros b.
  apply (separate_keeps_place dt boids b).
Qed.

(** X2: the centroid the cohesion pass steers toward is the centroid of
    the positions the flock had when [update] was called, and the three
    steering passes leave [average_boid_position] as it was: only the
    movement pass moves the centroid. *)
Theorem steering_keeps_centroid (delta_time : F) (boids : list (Boid F)) :
  cohesion delta_time (separation delta_time boids)
  = map (fun b => set_rot b (steering_nudge (rot b)
                               (angle_to (pos b) (average_boid_position boids))
                               (cohesion_force * delta_time)))
        (separation delta_time boids) /\
  average_boid_position
    (alignment delta_time (cohesion delta_time (separation delta_time boids)))
  = average_boid_position boids.
Proof.
  unfold average_boid_position. split.
  - unfold cohesion.
    rewrite (center_positions _ _ (map_pos_separation delta_time boids)).
    reflexivity.
  - apply center_positions. unfold alignment, cohesion.
    rewrite !map_map. cbn [set_rot pos]. apply map_pos_separation.
Qed.

Lemma filter_and_length {X : Type} (f g : X -> bool) (l : list X) :
  (length (filter (fun a => f a && g a) l) <= length (filter f l))%nat.
Proof.
  induction l as [| a l IH]; [reflexivity|]. cbn [filter].
  destruct (f a), (g a); cbn [andb length]; lia.
Qed.

(** X3: the mean of the separation pass never divides by zero and never
    counts the agent itself.  For an agent [x] of a flock with pairwise
    distinct identities, either no bearing is collected and [x] is left as
    it is, or between 1 and N - 1 bearings are collected and the heading is
    nudged toward the opposite of their sum divided by their number. *)
Theorem separation_mean_divisor
  (delta_time : F) (boids : list (Boid F)) (x : Boid F) :
  NoDup (map (@id F) boids) -> In x boids ->
  let angles := boid_angles boids x in
  (angles = [] /\ separate delta_time boids x = x) \/
  ((1 <= length angles <= pred (length boids))%nat /\
   separate delta_time boids x
   = set_rot x (steering_nudge (rot x)
                  (opposite_angle
                     (fold_left fadd angles (of_Z 0)
                      / of_Z (Z.of_nat (length angles))))
                  (of_Z 90 * delta_time))).
Proof.
  intros Hnd Hx angles.
  assert (Hlen : (length angles <= pred (length boids))%nat).
  { subst angles. unfold boid_angles. rewrite length_map.
    rewrite <- (others_length boids x Hnd Hx). unfold in_ring.
    apply filter_and_length. }
  unfold separate. fold angles. destruct angles as [| a angles'] eqn:E.
  - left. split; reflexivity.
  - right. split; [|reflexivity]. cbn [length] in *. lia.
Qed.
End FlockInvariants.

(** ** Construction *)

Section ConstructionFacts.
Context {F : Type} {A : FloatArith F}.
Local Open Scope float_scope.
Variable M : nat.

Lemma System_emplace_spec (remaining i : nat) (boids : list (Boid F)) (c : nat) :
  (c < M)%nat -> (c + remaining <= M)%nat ->
  System_emplace M remaining i boids c
  = (boids ++ map (fun j => mkBoid (mkVector2f (of_Z 20 * of_Z (Z.of_nat (i + j)))
                                               (of_Z 200))
                                   (of_Z 0) (c + j))
                  (seq 0 remaining),
     Nat.modulo (c + remaining) M).
Proof.
  revert i boids c. induction remaining as [| r IH]; intros i boids c Hc Hr.
  - cbn [System_emplace seq map]. rewrite app_nil_r, Nat.add_0_r, Nat.mod_small by exact Hc.
    reflexivity.
  - cbn [System_emplace Boid_new].
    destruct (Nat.eq_dec (S c) M) as [E | E].
    + assert (r = 0%nat) by lia. subst r.
      cbn [System_emplace seq map]. rewrite !Nat.add_0_r.
      replace (c + 1)%nat with (S c) by lia. reflexivity.
    + rewrite (Nat.mod_small (S c) M) by lia.
      rewrite IH by lia. cbn [seq map]. rewrite !Nat.add_0_r.
      rewrite <- app_assoc. cbn [app].
      rewrite <- seq_shift, map_map.
      f_equal; [|f_equal; lia].
      f_equal. f_equal. apply map_ext. intros j.
      f_equal; [|lia]. f_equal. f_equal. f_equal. f_equal. lia.
Qed.

Lemma map_add_seq (c s n : nat) :
  map (fun i => (c + i)%nat) (seq s n) = seq (c + s) n.
Proof.
  revert s. induction n as [| n IH]; intros s; [reflexivity|].
  cbn [seq map]. rewrite IH. f_equal. f_equal. lia.
Qed.

(** X4: [System::System(n_boids)], called when the static counter of
    [Boid::Boid] is [c] and the counter does not wrap ([c + n_boids] is at
    most the number of values of [size_t]), builds [n_boids] agents in
    creation order, agent [i] at (20 * i, 200) with heading 0 and identity
    [c + i], and leaves the counter at [c + n_boids] (modulo the number of
    values of [size_t]). *)
Theorem System_new_spec (c n_boids : nat) :
  (c < M)%nat -> (c + n_boids <= M)%nat ->
  System_new M c n_boids = (System_from c n_boids, Nat.modulo (c + n_boids) M) /\
  length (System_from (F := F) c n_boids) = n_boids /\
  map (@id F) (System_from c n_boids) = seq c n_boids.
Proof.
  intros Hc Hn. split; [|split].
  - unfold System_new. rewrite System_emplace_spec by assumption. reflexivity.
  - unfold System_from. rewrite length_map. apply length_seq.
  - unfold System_from. rewrite map_map. cbn [id].
    rewrite map_add_seq, Nat.add_0_r. reflexivity.
Qed.
Lemma nth_error_seq_value (c n i v : nat) :
  nth_error (seq c n) i = Some v -> v = (c + i)%nat.
Proof.
  intros H. assert (Hi : (i < n)%nat).
  { rewrite <- (length_seq n c). apply nth_error_Some. congruence. }
  apply (nth_error_nth _ _ 0%nat) in H. rewrite seq_nth in H by exact Hi. lia.
Qed.

Lemma System_from_id (c n i : nat) (x : Boid F) :
  nth_error (System_from c n) i = Some x -> id x = (c + i)%nat.
Proof.
  intros H. apply (nth_error_seq_value c n).
  replace (seq c n) with (map (fun k => (c + k)%nat) (seq 0 n))
    by (rewrite map_add_seq, Nat.add_0_r; reflexivity).
  unfold System_from in H. rewrite nth_error_map in *.
  destruct (nth_error (seq 0 n) i); [|discriminate].
  injection H as <-. reflexivity.
Qed.

(** X5: identities are unique and never reused.  Within a constructed
    flock two agents compare equal with [operator==] exactly when they are
    the same element of the list, and a flock constructed afterwards shares
    no identity with it (as long as the counter does not wrap). *)
Theorem System_identities_distinct (c n m : nat) :
  (c < M)%nat -> (c + n + m <= M)%nat ->
  let first := fst (System_new (F := F) M c n) in
  let second := fst (System_new (F := F) M (snd (System_new (F := F) M c n)) m) in
  NoDup (map (@id F) first) /\
  (forall i j x y, nth_error first i = Some x -> nth_error first j = Some y ->
                   (boid_eqb x y = true <-> i = j)) /\
  (forall x y, In x first -> In y second -> boid_eqb x y = false).
Proof.
  intros Hc Hm. cbv zeta.
  destruct (@System_new_spec c n Hc ltac:(lia)) as (E & _ & Hids).
  rewrite E. cbn [fst snd]. split; [|split].
  - rewrite Hids. apply seq_NoDup.
  - intros i j x y Hx Hy. unfold boid_eqb.
    rewrite (System_from_id _ _ _ Hx), (System_from_id _ _ _ Hy), Nat.eqb_eq. lia.
  - intros x y Hx Hy. destruct m as [| m'].
    + cbn in Hy. contradiction.
    + rewrite Nat.mod_small in Hy by lia.
      destruct (@System_new_spec (c + n)%nat (S m') ltac:(lia) ltac:(lia))
        as (E2 & _ & Hids2).
      rewrite E2 in Hy. cbn [fst] in Hy.
      apply (in_map (@id F)) in Hx, Hy. rewrite Hids in Hx. rewrite Hids2 in Hy.
      apply in_seq in Hx, Hy. unfold boid_eqb. apply Nat.eqb_neq. lia.
Qed.
End ConstructionFacts.

Lemma small_below_size_t_values (k : nat) : (k <= 4)%nat -> (k < size_t_values)%nat.
Proof.
  intros H. unfold size_t_values.
  pose proof (Nat.pow_le_mono_r 2 3 64 ltac:(discriminate) ltac:(lia)) as H3.
  change (2 ^ 3)%nat with 8%nat in H3.
  apply Nat.lt_le_trans with 8%nat; [lia | exact H3].
Qed.


(** ** Further properties in single precision *)

Section Binary32Edges.
Import Binary32.
Local Open Scope float_scope.

(** *** [distance] *)

(** Rounding to nearest even does not look at the sign. *)
Lemma abs_binary_round (s : bool) (m : positive) (e : Z) :
  SFabs (binary_round prec emax s m e) = SFabs (binary_round prec emax false m e).
Proof.
  unfold binary_round. destruct (shl_align _ _ _) as [mz ez].
  unfold binary_round_aux. destruct (shr_fexp _ _ _ _ _) as [mrs' e'].
  destruct (shr_fexp _ _ _ _ _) as [mrs'' e''].
  destruct (shr_m mrs''); [reflexivity | | reflexivity].
  destruct (Z.leb _ _); reflexivity.
Qed.

Lemma abs_binary_normalize_opp (z e : Z) :
  SFabs (binary_normalize prec emax (- z) e false)
  = SFabs (binary_normalize prec emax z e false).
Proof.
  destruct z as [| p | p]; cbn [Z.opp binary_normalize]; [reflexivity | |];
    rewrite (abs_binary_round true); reflexivity.
Qed.

(** The magnitude of a float difference does not depend on the order of
    the operands. *)
Lemma abs_sub_sym (u v : float) : fabs (u - v) = fabs (v - u).
Proof.
  cbn [fabs fsub arith].
  destruct u as [su | su | | su mu eu], v as [sv | sv | | sv mv ev];
    try reflexivity; try (destruct su, sv; reflexivity).
  unfold SFsub. rewrite (Z.min_comm ev eu).
  rewrite <- abs_binary_normalize_opp. f_equal. f_equal. ring.
Qed.

Lemma distance_sym_b32 (a b : Vector2f float) : distance a b = distance b a.
Proof.
  unfold distance.
  rewrite (abs_sub_sym (vx b) (vx a)), (abs_sub_sym (vy b) (vy a)). reflexivity.
Qed.

Lemma in_ring_sym_b32 (x y : Boid float) : in_ring x y = in_ring y x.
Proof.
  unfold in_ring, boid_eqb.
  rewrite (distance_sym_b32 (pos x) (pos y)), (Nat.eqb_sym (id x) (id y)).
  reflexivity.
Qed.

(** X6: [distance] is symmetric on all floats, bit for bit (also on
    infinities and NaN), so "being inside the ring of" is a symmetric
    relation between agents. *)
Theorem distance_symmetric :
  (forall a b : Vector2f float, distance a b = distance b a) /\
  (forall x y : Boid float, in_ring x y = in_ring y x).
Proof. split; [exact distance_sym_b32 | exact in_ring_sym_b32]. Qed.

Lemma sub_self (u : float) : is_finite u = true -> u - u = S754_zero false.
Proof.
  cbn [fsub arith]. destruct u as [s | s | | s m e]; try discriminate; intros _.
  - destruct s; reflexivity.
  - unfold SFsub, shl_align. rewrite Z.min_id, Z.sub_diag. cbn [fst].
    rewrite ?Z.sub_diag. reflexivity.
Qed.

Lemma distance_self_b32 (p : Vector2f float) :
  is_finite (vx p) = true -> is_finite (vy p) = true ->
  distance p p = S754_zero false.
Proof.
  intros Hx Hy. unfold distance. rewrite (sub_self _ Hx), (sub_self _ Hy).
  vm_compute. reflexivity.
Qed.

(** X7: two agents at the same finite position are always inside each
    other's ring: the difference of a finite float with itself is +0, the
    distance is +0, and only [operator==] keeps an agent from counting
    itself.  The bearing they collect of each other is the bearing of a
    point to itself, +0 when atan2(+0, +0) is +0. *)
Theorem coincident_agents_are_neighbours
  (T : FloatTrig float) (x y : Boid float) :
  is_finite (vx (pos x)) = true -> is_finite (vy (pos x)) = true ->
  pos y = pos x ->
  distance (pos x) (pos y) = S754_zero false /\
  in_ring x y = negb (boid_eqb x y) /\
  in_ring x x = false /\
  (atan2 (S754_zero false) (S754_zero false) = S754_zero false ->
   angle_to (pos x) (pos y) = S754_zero false).
Proof.
  intros Hx Hy E. pose proof (distance_self_b32 (pos x) Hx Hy) as Hd.
  split; [rewrite E; exact Hd|]. split; [|split].
  - unfold in_ring. rewrite E, Hd. apply andb_true_r.
  - unfold in_ring, boid_eqb. rewrite Nat.eqb_refl. reflexivity.
  - intros H0. rewrite E. unfold angle_to, vsub. cbn [vx vy].
    rewrite (sub_self _ Hx), (sub_self _ Hy), H0. vm_compute. reflexivity.
Qed.

Lemma add_nan_r (u : float) : u + S754_nan = S754_nan.
Proof. destruct u; reflexivity. Qed.

Lemma sub_nan_r (u : float) : u - S754_nan = S754_nan.
Proof. destruct u; reflexivity. Qed.

Lemma distance_nan_l (a b : Vector2f float) :
  vx a = S754_nan \/ vy a = S754_nan -> distance a b = S754_nan.
Proof.
  intros [H | H]; unfold distance; rewrite H, sub_nan_r;
    cbn [sum_pow2 fabs sqrtf arith SFabs]; unfold b32_sum_pow2; cbn [widen SFmul].
  - reflexivity.
  - set (sq := SFmul dprec demax _ _).
    replace (SFadd dprec demax sq S754_nan) with S754_nan
      by (destruct sq; reflexivity).
    reflexivity.
Qed.

(** X8: an agent with a NaN coordinate is outside every ring and has an
    empty ring itself: its distance to and from every agent is NaN, every
    comparison with 20 fails, and the separation pass leaves it as it is. *)
Theorem nan_position_is_isolated
  (T : FloatTrig float) (delta_time : float) (boids : list (Boid float))
  (x : Boid float) :
  vx (pos x) = S754_nan \/ vy (pos x) = S754_nan ->
  (forall y, in_ring x y = false /\ in_ring y x = false) /\
  separate delta_time boids x = x.
Proof.
  intros H.
  assert (Hr : forall y, in_ring x y = false).
  { intros y. unfold in_ring. rewrite (distance_nan_l (pos x) (pos y) H).
    apply andb_false_r. }
  split.
  - intros y. split; [apply Hr|].
    rewrite (in_ring_sym_b32 y x). apply Hr.
  - unfold separate, boid_angles.
    replace (filter (in_ring x) boids) with (@nil (Boid float)); [reflexivity|].
    symmetry. induction boids as [| y l IH]; [reflexivity|].
    cbn [filter]. rewrite (Hr y). exact IH.
Qed.
(** *** [steering_nudge] and non-finite or negative arguments *)

Lemma normalize_angle_not_finite (theta : float) :
  is_finite theta = false -> normalize_angle theta = S754_nan.
Proof. destruct theta as [s | s | | s m e]; try discriminate; reflexivity. Qed.

Lemma steering_nudge_nan_from (from to force : float) :
  is_finite from = false -> steering_nudge from to force = S754_nan.
Proof.
  intros H. unfold steering_nudge, wrapped_difference.
  rewrite (normalize_angle_not_finite from H), sub_nan_r. reflexivity.
Qed.

Lemma rot_separate_not_finite
  (T : FloatTrig float) (dt : float) (l : list (Boid float)) (b : Boid float) :
  is_finite (rot b) = false -> is_finite (rot (separate dt l b)) = false.
Proof.
  intros H. unfold separate. destruct (boid_angles l b); [exact H|].
  unfold set_rot. cbn [rot]. rewrite (@steering_nudge_nan_from (rot b) _ _ H). reflexivity.
Qed.

(** X9: [update] never repairs a heading that is a NaN or an infinity:
    [normalize_angle] turns it into NaN and every nudge keeps it there, so
    the agent's heading is NaN after the update, whatever the other agents
    and [delta_time] are. *)
Theorem nan_heading_persists
  (T : FloatTrig float) (delta_time : float) (boids : list (Boid float))
  (i : nat) (b : Boid float) :
  nth_error boids i = Some b -> is_finite (rot b) = false ->
  exists b', nth_error (update delta_time boids) i = Some b' /\
             rot b' = S754_nan /\ id b' = id b.
Proof.
  intros Hb Hr. apply (nth_error_separation delta_time) in Hb.
  pose proof (rot_separate_not_finite T delta_time boids b Hr) as Hs.
  unfold update, movement, alignment, cohesion.
  rewrite !nth_error_map, Hb. cbn [option_map].
  eexists. split; [reflexivity|]. unfold set_pos, set_rot. cbn [rot id]. split.
  - rewrite (@steering_nudge_nan_from (rot (separate delta_time boids b)) _ _ Hs).
    apply steering_nudge_nan_from. reflexivity.
  - apply (separate_keeps_place delta_time boids b).
Qed.

Lemma steering_nudge_nan_to (from force : float) :
  steering_nudge from S754_nan force
  = normalize_angle (normalize_angle from + - force).
Proof. reflexivity. Qed.

Lemma accumulate_from_nan (v : list float) :
  fold_left fadd v S754_nan = S754_nan.
Proof. induction v as [| a v IH]; [reflexivity|]. cbn [fold_left]. exact IH. Qed.

Lemma fold_left_nan (v : list float) (acc : float) :
  In S754_nan v -> fold_left fadd v acc = S754_nan.
Proof.
  revert acc. induction v as [| a v IH]; intros acc H; [contradiction|].
  cbn [fold_left]. destruct H as [-> | H].
  - rewrite add_nan_r. apply accumulate_from_nan.
  - apply IH. exact H.
Qed.

(** X10: a NaN among the headings poisons the mean, not the agents: in the
    alignment pass the target is then NaN, every comparison with it fails,
    and every agent's heading is lowered by the whole budget
    [alignment_force * delta_time], however close to the others it
    already heads. *)
Theorem alignment_with_nan_heading
  (delta_time : float) (boids : list (Boid float)) (b : Boid float) :
  In b boids -> rot b = S754_nan ->
  average_rotation boids = S754_nan /\
  alignment delta_time boids
  = map (fun a => set_rot a (normalize_angle
                               (normalize_angle (rot a)
                                + - (b32_of_Z 50 * delta_time))))
        boids.
Proof.
  intros Hb Hr.
  assert (E : average_rotation boids = S754_nan).
  { unfold average_rotation, mean, accumulate.
    rewrite fold_left_nan; [reflexivity|].
    rewrite <- Hr. apply (in_map (@rot float)). exact Hb. }
  split; [exact E|]. unfold alignment. rewrite E.
  apply map_ext. intros a. rewrite steering_nudge_nan_to. reflexivity.
Qed.

(** The order of floats: comparing the other way round gives the opposite
    answer. *)
Lemma SFcompare_antisym (u v : float) (c : comparison) :
  SFcompare u v = Some c -> SFcompare v u = Some (CompOpp c).
Proof.
  destruct u as [su | su | | su mu eu], v as [sv | sv | | sv mv ev]; cbn;
    try discriminate;
    try (destruct su; intros H; injection H as <-; reflexivity);
    try (destruct sv; intros H; injection H as <-; reflexivity);
    try (intros H; injection H as <-; reflexivity).
  - destruct su, sv; intros H; injection H as <-; reflexivity.
  - rewrite (Z.compare_antisym eu ev).
    replace (PosDef.Pos.compare_cont Eq mv mu)
      with (CompOpp (PosDef.Pos.compare_cont Eq mu mv))
      by (apply (Pos.compare_cont_antisym mu mv Eq)).
    destruct su, sv; intros H; injection H as <-; try reflexivity;
      destruct (eu ?= ev)%Z; cbn [CompOpp]; try reflexivity;
      destruct (PosDef.Pos.compare_cont Eq mu mv); reflexivity.
Qed.

Lemma adjustment_bounds (difference steering_force : float) :
  difference <> S754_nan -> steering_force <> S754_nan ->
  let adjustment :=
    if fabs difference <? steering_force then fabs difference
    else steering_force in
  SFleb adjustment steering_force = true /\
  SFleb adjustment (fabs difference) = true.
Proof.
  intros Hd Hf. cbv zeta. cbn [flt fabs arith].
  assert (Ha : SFabs difference <> S754_nan)
    by (destruct difference; try discriminate; contradiction).
  unfold SFltb, SFleb.
  destruct (SFcompare (SFabs difference) steering_force) as [c |] eqn:E.
  - pose proof (SFcompare_antisym _ _ E) as E'.
    destruct c; rewrite ?E, ?E', ?(SFcompare_refl Ha), ?(SFcompare_refl Hf);
      split; reflexivity.
  - exfalso. destruct (SFabs difference), steering_force;
      try discriminate E; contradiction.
Qed.

(** X11: the clamp of [steering_nudge] ("do not exceed the difference in
    either direction"): when neither the wrapped difference nor the budget
    is a NaN, the heading returned is [normalize_angle] of the normalized
    heading plus or minus an adjustment that is at most the budget and at
    most the magnitude of the difference, in the order of floats; the sign
    is plus exactly when the difference is above 0. *)
Theorem adjustment_clamped (from to steering_force : float) :
  let n_from := normalize_angle from in
  let difference := wrapped_difference n_from (normalize_angle to) in
  difference <> S754_nan -> steering_force <> S754_nan ->
  exists adjustment : float,
    SFleb adjustment steering_force = true /\
    SFleb adjustment (fabs difference) = true /\
    steering_nudge from to steering_force
    = normalize_angle
        (n_from + (if difference >? b32_of_Z 0 then adjustment else - adjustment)).
Proof.
  cbv zeta. intros Hd Hf.
  destruct (adjustment_bounds Hd Hf) as [H1 H2]. cbv zeta in H1, H2.
  eexists. split; [exact H1|]. split; [exact H2|]. reflexivity.
Qed.

(** The magnitude of the difference is not below a budget that is not
    above zero. *)
Lemma abs_not_below_nonpositive (d f : float) :
  SFleb f (S754_zero false) = true -> (fabs d <? f) = false.
Proof.
  destruct f as [s | s | | s m e]; try discriminate;
    destruct s; try discriminate; intros _;
    destruct d as [s' | s' | | s' m' e']; reflexivity.
Qed.

(** X12: [steering_nudge] does not check the sign of its budget.  With a
    budget that is zero or negative (a negative [delta_time]) the clamp
    never applies: the heading is moved by the budget itself, away from
    the target, however small the difference is. *)
Theorem steering_nudge_nonpositive_budget (from to steering_force : float) :
  SFleb steering_force (S754_zero false) = true ->
  steering_nudge from to steering_force
  = normalize_angle
      (normalize_angle from
       + (if wrapped_difference (normalize_angle from) (normalize_angle to) >? b32_of_Z 0
          then steering_force else - steering_force)).
Proof.
  intros H. unfold steering_nudge. cbv zeta.
  rewrite (abs_not_below_nonpositive _ steering_force H). reflexivity.
Qed.

(** X13: the empty flock.  [update], called any number of times, has
    nothing to write and returns the empty flock; the divisions of 0 by 0
    in its means trap nothing, and [average_boid_position] returns the
    point (NaN, NaN). *)
Theorem empty_flock (T : FloatTrig float) (n : nat) (delta_time : float) :
  ticks n delta_time [] = [] /\
  average_boid_position (@nil (Boid float)) = mkVector2f S754_nan S754_nan.
Proof.
  split; [|reflexivity].
  induction n as [| n IH]; [reflexivity|]. rewrite ticks_S. exact IH.
Qed.

Lemma coincident_agents_are_neighbours_witness :
  let x := mkBoid here (b32_of_Z 0) 0 in
  let y := mkBoid here (b32_of_Z 90) 1 in
  is_finite (vx (pos x)) = true /\ is_finite (vy (pos x)) = true /\
  pos y = pos x /\ in_ring x y = negb (boid_eqb x y).
Proof.
  cbv zeta. split; [reflexivity|]. split; [reflexivity|]. split; [reflexivity|].
  apply (@coincident_agents_are_neighbours zero_only_trig
           (mkBoid here (b32_of_Z 0) 0) (mkBoid here (b32_of_Z 90) 1)
           eq_refl eq_refl eq_refl).
Defined.

Lemma nan_position_is_isolated_witness :
  let x := mkBoid (mkVector2f S754_nan (b32_of_Z 200)) (b32_of_Z 0) 7 in
  (vx (pos x) = S754_nan \/ vy (pos x) = S754_nan) /\
  separate (T := zero_only_trig) dt60 (x :: twins32) x = x.
Proof.
  cbv zeta. split; [left; reflexivity|].
  apply (@nan_position_is_isolated zero_only_trig dt60
           (mkBoid (mkVector2f S754_nan (b32_of_Z 200)) (b32_of_Z 0) 7 :: twins32)
           (mkBoid (mkVector2f S754_nan (b32_of_Z 200)) (b32_of_Z 0) 7)
           (or_introl eq_refl)).
Defined.

Lemma nan_heading_persists_witness :
  let b := mkBoid here S754_nan 5 in
  nth_error (b :: twins32) 0 = Some b /\ is_finite (rot b) = false /\
  exists b', nth_error (update (T := zero_only_trig) dt60 (b :: twins32)) 0 = Some b' /\
             rot b' = S754_nan /\ id b' = id b.
Proof.
  cbv zeta. split; [reflexivity|]. split; [reflexivity|].
  apply (@nan_heading_persists zero_only_trig dt60 (mkBoid here S754_nan 5 :: twins32)
           0%nat (mkBoid here S754_nan 5) eq_refl eq_refl).
Defined.

Lemma alignment_with_nan_heading_witness :
  let b := mkBoid here S754_nan 5 in
  In b (b :: twins32) /\ rot b = S754_nan /\
  average_rotation (b :: twins32) = S754_nan.
Proof.
  cbv zeta. split; [left; reflexivity|]. split; [reflexivity|].
  apply (@alignment_with_nan_heading dt60 (mkBoid here S754_nan 5 :: twins32)
           (mkBoid here S754_nan 5) (or_introl eq_refl) eq_refl).
Defined.

Lemma adjustment_clamped_witness :
  wrapped_difference (normalize_angle (b32_of_Z 10)) (normalize_angle (b32_of_Z 250))
  <> S754_nan /\
  b32_of_Z 90 <> S754_nan /\
  exists adjustment : float,
    SFleb adjustment (b32_of_Z 90) = true /\
    steering_nudge (b32_of_Z 10) (b32_of_Z 250) (b32_of_Z 90)
    = normalize_angle (b32_of_Z 10 + - adjustment).
Proof.
  assert (H1 : wrapped_difference (normalize_angle (b32_of_Z 10))
                                  (normalize_angle (b32_of_Z 250)) <> S754_nan)
    by (vm_compute; discriminate).
  assert (H2 : b32_of_Z 90 <> S754_nan) by (vm_compute; discriminate).
  split; [exact H1|]. split; [exact H2|].
  destruct (@adjustment_clamped (b32_of_Z 10) (b32_of_Z 250) (b32_of_Z 90) H1 H2)
    as (adj & Ha & _ & E).
  exists adj. split; [exact Ha|]. exact E.
Defined.

Lemma steering_nudge_nonpositive_budget_witness :
  SFleb (b32_of_Z (- 1)) (S754_zero false) = true /\
  steering_nudge (b32_of_Z 10) (b32_of_Z 10) (b32_of_Z (- 1)) = b32_of_Z 11.
Proof.
  split; [reflexivity|].
  rewrite (@steering_nudge_nonpositive_budget (b32_of_Z 10) (b32_of_Z 10) (b32_of_Z (- 1)) eq_refl).
  vm_compute. reflexivity.
Defined.
End Binary32Edges.

(** ** Further properties in exact arithmetic, and instances *)

Section ExactExtras.
Import Exact.
Local Open Scope R_scope.



Lemma separation_mean_divisor_witness :
  let x := mkBoid (mkVector2f 0 200) 0 0%nat in
  NoDup (map (@id R) twins) /\ In x twins /\
  (length (boid_angles twins x) <= 1)%nat.
Proof.
  cbv zeta.
  assert (Hnd : NoDup (map (@id R) twins)).
  { cbn. repeat constructor; cbn; intuition discriminate. }
  assert (Hx : In (mkBoid (mkVector2f 0 200) 0 0%nat) twins) by (left; reflexivity).
  split; [exact Hnd|]. split; [exact Hx|].
  destruct (@separation_mean_divisor R _ _ 1 twins _ Hnd Hx) as [[E _] | [[_ H] _]].
  - rewrite E. cbn. lia.
  - exact H.
Defined.

Lemma System_new_spec_witness :
  (0 < size_t_values)%nat /\ (0 + 2 <= size_t_values)%nat /\
  fst (System_new (F := R) size_t_values 0 2) = System_from 0 2.
Proof.
  assert (H0 : (0 < size_t_values)%nat) by (apply small_below_size_t_values; lia).
  assert (H2 : (0 + 2 <= size_t_values)%nat)
    by (apply Nat.lt_le_incl, small_below_size_t_values; lia).
  split; [exact H0|]. split; [exact H2|].
  destruct (@System_new_spec R _ size_t_values 0%nat 2%nat H0 H2) as (E & _). rewrite E. reflexivity.
Defined.

Lemma System_identities_distinct_witness :
  (0 < size_t_values)%nat /\ (0 + 2 + 1 <= size_t_values)%nat /\
  NoDup (map (@id R) (fst (System_new size_t_values 0 2))).
Proof.
  assert (H0 : (0 < size_t_values)%nat) by (apply small_below_size_t_values; lia).
  assert (H3 : (0 + 2 + 1 <= size_t_values)%nat)
    by (apply Nat.lt_le_incl, small_below_size_t_values; lia).
  split; [exact H0|]. split; [exact H3|].
  apply (@System_identities_distinct R _ size_t_values 0%nat 2%nat 1%nat H0 H3).
Defined.
End ExactExtras.

